(** * Email model: addresses, messages, preparation and send fan-out

    A shallow embedding of [src/utils.py], [src/email_address.py],
    [src/email.py] and [src/service.py] (the same code is collected in
    [system_for_send_email.py], which also declares [Status]).

    - A Python [str] is a sequence of Unicode code points: [list N].
    - [Email] objects are mutable and passed by reference: they live in a
      heap indexed by location; [copy.deepcopy] allocates.
    - [date.today()] reads the system clock and the log file is appended
      to: both are part of the [World] threaded through the methods.
    - A raised exception is an error result. *)

From Stdlib Require Import NArith ZArith Ascii String List Lia Bool.
From stdpp Require Import base list.
Import ListNotations.

Set Default Proof Using "Type".
Open Scope N_scope.

(** ** Python strings *)

Module Str.

Definition pystr := list N.

(** Code points of a string literal of this file (UTF-8 decoding of the
    bytes the literal holds). *)
Fixpoint utf8_decode (bs : list N) : pystr :=
  match bs with
  | [] => []
  | b0 :: r0 =>
      if b0 <? 128 then b0 :: utf8_decode r0
      else match r0 with
      | [] => []
      | b1 :: r1 =>
          if b0 <? 224 then ((b0 - 192) * 64 + (b1 - 128)) :: utf8_decode r1
          else match r1 with
          | [] => []
          | b2 :: r2 =>
              if b0 <? 240
              then ((b0 - 224) * 4096 + (b1 - 128) * 64 + (b2 - 128)) :: utf8_decode r2
              else match r2 with
              | [] => []
              | b3 :: r3 =>
                  ((b0 - 240) * 262144 + (b1 - 128) * 4096 + (b2 - 128) * 64 + (b3 - 128))
                    :: utf8_decode r3
              end
          end
      end
  end.

Definition lit (s : string) : pystr :=
  utf8_decode (List.map N_of_ascii (list_ascii_of_string s)).

(** [str.isspace] on one code point: CPython's [_PyUnicode_IsWhitespace]. *)
Definition isspace (c : N) : bool :=
  ((9 <=? c) && (c <=? 13)) || ((28 <=? c) && (c <=? 32))
  || (c =? 133) || (c =? 160) || (c =? 5760)
  || ((8192 <=? c) && (c <=? 8202))
  || (c =? 8232) || (c =? 8233) || (c =? 8239) || (c =? 8287) || (c =? 12288).

Definition SPACE : N := 32.
Definition TAB : N := 9.
Definition NEWLINE : N := 10.
Definition AT : N := 64.

(** [s.replace(old, new)] where [old] and [new] are one character long. *)
Definition replace (old new : N) (s : pystr) : pystr :=
  List.map (fun c => if c =? old then new else c) s.

(** [s.split()]: the maximal runs of non-whitespace characters, in order.
    [word] holds the characters of the run being read. *)
Fixpoint split_from (word : pystr) (s : pystr) : list pystr :=
  match s with
  | [] => match word with [] => [] | _ => [word] end
  | c :: s' =>
      if isspace c
      then match word with
           | [] => split_from [] s'
           | _ => word :: split_from [] s'
           end
      else split_from (word ++ [c]) s'
  end.

Definition split (s : pystr) : list pystr := split_from [] s.

(** [sep.join(l)] *)
Fixpoint join (sep : pystr) (l : list pystr) : pystr :=
  match l with
  | [] => []
  | w :: l' => match l' with [] => w | _ => w ++ sep ++ join sep l' end
  end.

(** [s.strip()]: leading, then trailing whitespace removed. *)
Fixpoint lstrip (s : pystr) : pystr :=
  match s with
  | [] => []
  | c :: s' => if isspace c then lstrip s' else s
  end.

Fixpoint rstrip (s : pystr) : pystr :=
  match s with
  | [] => []
  | c :: s' =>
      match rstrip s' with
      | [] => if isspace c then [] else [c]
      | t => c :: t
      end
  end.

Definition strip (s : pystr) : pystr := rstrip (lstrip s).

(** [x in s] for a one-character [x] *)
Definition contains (x : N) (s : pystr) : bool := existsb (N.eqb x) s.

Fixpoint startswith (s p : pystr) : bool :=
  match p, s with
  | [], _ => true
  | _ :: _, [] => false
  | a :: p', b :: s' => (a =? b) && startswith s' p'
  end.

(** [s.endswith(suffix)] *)
Definition endswith (s suffix : pystr) : bool :=
  (length suffix <=? length s)%nat
  && startswith (skipn (length s - length suffix) s) suffix.

(** [s.split(sep)] for a one-character separator: never empty. *)
Fixpoint split_on (sep : N) (s : pystr) : list pystr :=
  match s with
  | [] => [[]]
  | c :: s' =>
      if c =? sep then [] :: split_on sep s'
      else match split_on sep s' with
           | [] => [[c]]
           | w :: ws => (c :: w) :: ws
           end
  end.

(** [s[:n]] for an [int] n: a negative bound counts from the end. *)
Definition slice_to (n : Z) (s : pystr) : pystr :=
  if (0 <=? n)%Z then firstn (Z.to_nat n) s
  else firstn (length s - Z.to_nat (- n)) s.

(** A surrogate code point: a [str] may hold one, UTF-8 cannot encode it. *)
Definition is_surrogate (c : N) : bool := (55296 <=? c) && (c <=? 57343).

(** The position of the first surrogate of a text. *)
Fixpoint first_surrogate (s : pystr) : option nat :=
  match s with
  | [] => None
  | c :: t => if is_surrogate c then Some 0%nat else option_map S (first_surrogate t)
  end.

(** Truth value of a string or of a list: non-empty. *)
Definition truthy {A} (l : list A) : bool :=
  match l with [] => false | _ => true end.

End Str.
Import Str.

(** ** [src/utils.py] *)

Definition clean_text (text : pystr) : pystr :=
  join (lit " ") (split (replace TAB SPACE (replace NEWLINE SPACE text))).

(** ** [Status] (a [StrEnum]) *)

Inductive Status := DRAFT | READY | SENT | FAILED | INVALID.

Definition Status_eqb (a b : Status) : bool :=
  match a, b with
  | DRAFT, DRAFT | READY, READY | SENT, SENT | FAILED, FAILED | INVALID, INVALID => true
  | _, _ => false
  end.

(** The member's value: what [str()], [format()] and an f-string give for
    a [StrEnum] member. *)
Definition Status_value (s : Status) : pystr :=
  match s with
  | DRAFT => lit "draft"
  | READY => lit "ready"
  | SENT => lit "sent"
  | FAILED => lit "failed"
  | INVALID => lit "invalid"
  end.

(** The member's name, as it is written in the class body. *)
Definition Status_name (s : Status) : pystr :=
  match s with
  | DRAFT => lit "DRAFT"
  | READY => lit "READY"
  | SENT => lit "SENT"
  | FAILED => lit "FAILED"
  | INVALID => lit "INVALID"
  end.

(** ** Exceptions *)

Inductive Exn :=
| ValueError (msg : pystr)
| AttributeError (msg : pystr)
| UnicodeEncodeError (object : pystr) (start : nat)
| Dangling.  (* a location outside the heap: no Python reference is one *)

Inductive Res (A : Type) :=
| Ok (a : A)
| Raise (e : Exn).
Arguments Ok {A} a.
Arguments Raise {A} e.

(** ** [src/email_address.py] *)

Record EmailAddress := { _address : pystr }.

Definition address (self : EmailAddress) : pystr := _address self.

Definition _check_correct_email (address : pystr) : bool :=
  contains AT address
  && (endswith address (lit ".com") || endswith address (lit ".ru")
      || endswith address (lit ".net")).

(** [local, domain = self._address.split("@")] unpacks exactly two parts. *)
Definition masked (self : EmailAddress) : Res pystr :=
  match split_on AT (_address self) with
  | [local; domain] => Ok (slice_to 2 local ++ lit "***@" ++ domain)
  | [] | [_] => Raise (ValueError (lit "not enough values to unpack (expected 2, got 1)"))
  | _ => Raise (ValueError (lit "too many values to unpack (expected 2)"))
  end.

Definition is_ascii (c : N) : bool := c <? 128.

Definition ascii_lower (c : N) : N :=
  if (65 <=? c) && (c <=? 90) then c + 32 else c.

Section Lower.
(** [str.lower] on a string that has a code point outside ASCII: the
    Unicode case tables of the interpreter, which are no part of this
    repository. *)
Variable unicode_lower : pystr -> pystr.

(** [s.lower()]: CPython lowers an ASCII string byte by byte and any
    other one through the Unicode tables. *)
Definition lower (s : pystr) : pystr :=
  if forallb is_ascii s then List.map ascii_lower s else unicode_lower s.

Definition normalize_address (address : pystr) : pystr :=
  strip (lower address).

(** [EmailAddress(address)] *)
Definition EmailAddress_init (address : pystr) : Res EmailAddress :=
  let normalized := normalize_address address in
  if negb (_check_correct_email normalized)
  then Raise (ValueError (lit "Некорректный email: " ++ address))
  else Ok {| _address := normalized |}.
End Lower.

(** ** [src/email.py] *)

Record Email := {
  subject : pystr;
  body : pystr;
  sender : option EmailAddress;   (* [None] is not excluded by the dataclass *)
  recipients : list EmailAddress;
  date : option pystr;
  short_body : option pystr;
  status : Status
}.

(** The constructor's [recipients] argument. *)
Inductive RecipientsArg :=
| One (a : EmailAddress)
| Many (l : list EmailAddress).

(** [Email(subject, body, sender, recipients, date, short_body, status)]
    followed by [__post_init__]. *)
Definition Email_init (subject body : pystr) (sender : option EmailAddress)
    (recipients : RecipientsArg) (date short_body : option pystr)
    (status : Status) : Email :=
  {| subject := subject; body := body; sender := sender;
     recipients := match recipients with One a => [a] | Many l => l end;
     date := date; short_body := short_body; status := status |}.

Definition with_subject (v : pystr) (e : Email) : Email :=
  {| subject := v; body := body e; sender := sender e;
     recipients := recipients e; date := date e;
     short_body := short_body e; status := status e |}.
Definition with_body (v : pystr) (e : Email) : Email :=
  {| subject := subject e; body := v; sender := sender e;
     recipients := recipients e; date := date e;
     short_body := short_body e; status := status e |}.
Definition with_recipients (v : list EmailAddress) (e : Email) : Email :=
  {| subject := subject e; body := body e; sender := sender e;
     recipients := v; date := date e;
     short_body := short_body e; status := status e |}.
Definition with_date (v : option pystr) (e : Email) : Email :=
  {| subject := subject e; body := body e; sender := sender e;
     recipients := recipients e; date := v;
     short_body := short_body e; status := status e |}.
Definition with_short_body (v : option pystr) (e : Email) : Email :=
  {| subject := subject e; body := body e; sender := sender e;
     recipients := recipients e; date := date e;
     short_body := v; status := status e |}.
Definition with_status (v : Status) (e : Email) : Email :=
  {| subject := subject e; body := body e; sender := sender e;
     recipients := recipients e; date := date e;
     short_body := short_body e; status := v |}.

Definition get_recipients_str (self : Email) : pystr :=
  join (lit ", ") (List.map address (recipients self)).

(** [bool(self.subject and self.body)]: [a and b] is [a] when [a] is
    false and [b] otherwise. *)
Definition is_valid_fields (self : Email) : bool :=
  truthy (if truthy (subject self) then body self else subject self).

(** An f-string field holding an [Optional[str]]. *)
Definition format_opt (o : option pystr) : pystr :=
  match o with Some s => s | None => lit "None" end.

(** [self.short_body or self.body] *)
Definition short_body_or_body (self : Email) : pystr :=
  match short_body self with
  | Some s => if truthy s then s else body self
  | None => body self
  end.

(** [Email.__str__] (and [__repr__]) *)
Definition Email_str (self : Email) : Res pystr :=
  let recipients_str := get_recipients_str self in
  match sender self with
  | None => Raise (AttributeError (lit "'NoneType' object has no attribute 'masked'"))
  | Some a =>
      match masked a with
      | Raise x => Raise x
      | Ok m =>
          Ok (lit "Status: " ++ Status_value (status self) ++ [NEWLINE]
              ++ lit "Кому: " ++ recipients_str ++ [NEWLINE]
              ++ lit "От: " ++ m ++ [NEWLINE]
              ++ lit "Тема: " ++ subject self ++ lit ", дата "
              ++ format_opt (date self) ++ [NEWLINE]
              ++ short_body_or_body self)
      end
  end.

(** ** The world: object heap, system clock, log file *)

(** A location of the heap. *)
Abbreviation loc := nat.

Record Date := { year : N; month : N; day : N }.

Record World := {
  heap : list Email;          (* the [Email] objects, by location *)
  clock : nat -> Date;        (* what the n-th call of [date.today()] returns *)
  reads : nat;                (* calls of [date.today()] made so far *)
  send_log : option pystr     (* the text of [send.log], if the file exists *)
}.

Definition with_heap (h : list Email) (w : World) : World :=
  {| heap := h; clock := clock w; reads := reads w; send_log := send_log w |}.
Definition with_reads (n : nat) (w : World) : World :=
  {| heap := heap w; clock := clock w; reads := n; send_log := send_log w |}.
Definition with_send_log (f : option pystr) (w : World) : World :=
  {| heap := heap w; clock := clock w; reads := reads w; send_log := f |}.

(** A method: it runs in a world and returns or raises. *)
Definition M (A : Type) : Type := World -> Res A * World.

#[global] Instance M_ret : MRet M := fun A a w => (Ok a, w).
#[global] Instance M_bind : MBind M := fun A B f m w =>
  match m w with
  | (Ok a, w') => f a w'
  | (Raise x, w') => (Raise x, w')
  end.

Definition get (l : loc) : M Email := fun w =>
  match heap w !! l with
  | Some e => (Ok e, w)
  | None => (Raise Dangling, w)
  end.

(** [obj.field = v] *)
Definition setattr (l : loc) (f : Email -> Email) : M unit := fun w =>
  match heap w !! l with
  | Some e => (Ok tt, with_heap (<[l := f e]> (heap w)) w)
  | None => (Raise Dangling, w)
  end.

(** [copy.deepcopy(obj)]: a new object with the same field values. *)
Definition deepcopy (l : loc) : M loc := fun w =>
  match heap w !! l with
  | Some e => (Ok (length (heap w)), with_heap (heap w ++ [e]) w)
  | None => (Raise Dangling, w)
  end.

(** [date.today()] *)
Definition today : M Date := fun w =>
  (Ok (clock w (reads w)), with_reads (S (reads w)) w).

Definition digit (n : N) : N := 48 + n mod 10.

(** [d.strftime("%Y-%m-%d")] for a year of four digits *)
Definition strftime_Ymd (d : Date) : pystr :=
  [digit (year d / 1000); digit (year d / 100); digit (year d / 10); digit (year d)]
  ++ lit "-" ++ [digit (month d / 10); digit (month d)]
  ++ lit "-" ++ [digit (day d / 10); digit (day d)].

(** [open("send.log", "a")] creates the file when there is none. *)
Definition open_append : M unit := fun w =>
  (Ok tt, with_send_log (Some (default [] (send_log w))) w).

(** [log_file.write(text)] on the file opened with [encoding="utf-8"]:
    the text is encoded as a whole before any of it reaches the file, and
    a surrogate in it makes the encoder raise. *)
Definition write (text : pystr) : M unit := fun w =>
  match first_surrogate text with
  | Some i => (Raise (UnicodeEncodeError text i), w)
  | None => (Ok tt, with_send_log (Some (default [] (send_log w) ++ text)) w)
  end.

Definition lift {A} (r : Res A) : M A := fun w => (r, w).

(** ** [Email]'s methods that assign to [self] *)

Definition clean_data (self : loc) : M loc :=
  e ← get self;
  setattr self (with_subject (clean_text (subject e)));;
  e ← get self;
  setattr self (with_body (clean_text (body e)));;
  mret self.

Definition add_short_body (self : loc) (n : Z) : M loc :=
  e ← get self;
  (if negb (truthy (body e)) then setattr self (with_short_body None)
   else if (Z.of_nat (length (body e)) <=? n)%Z
        then setattr self (with_short_body (Some (body e)))
        else setattr self (with_short_body (Some (slice_to n (body e) ++ lit "..."))));;
  mret self.

Definition prepare (self : loc) : M loc :=
  clean_data self;;
  e ← get self;
  (if truthy (subject e) && truthy (body e) && bool_decide (is_Some (sender e))
      && truthy (recipients e)
   then setattr self (with_status READY)
   else setattr self (with_status INVALID));;
  add_short_body self 10;;
  mret self.

(** ** [src/service.py] *)

Module EmailService.

Record t := { email : loc }.

Definition add_send_date (self : t) : M pystr :=
  d ← today; mret (strftime_Ymd d).

(** The body of the [for recipient in self.email.recipients] loop, and the
    [return] after it. *)
Fixpoint send_loop (self : t) (rs : list EmailAddress)
    (sent_emails : list loc) : M (list loc) :=
  match rs with
  | [] => mret sent_emails
  | recipient :: rs' =>
      new_email ← deepcopy (email self);
      setattr new_email (with_recipients [recipient]);;
      d ← add_send_date self;
      setattr new_email (with_date (Some d));;
      e ← get (email self);
      (if Status_eqb (status e) READY
       then setattr new_email (with_status SENT)
       else setattr new_email (with_status FAILED));;
      send_loop self rs' (sent_emails ++ [new_email])
  end.

Definition send_email (self : t) : M (list loc) :=
  e ← get (email self);
  if negb (truthy (recipients e)) then mret []
  else send_loop self (recipients e) [].

End EmailService.

(** [LoggingEmailService] inherits the constructor and the bound message
    of [EmailService]. *)
Module LoggingEmailService.

(** The text of one log line. *)
Definition log_line (e : Email) : Res pystr :=
  match sender e with
  | None => Raise (AttributeError (lit "'NoneType' object has no attribute 'address'"))
  | Some a =>
      Ok (lit "[" ++ format_opt (date e) ++ lit "] Status: " ++ Status_value (status e)
          ++ lit ", " ++ lit "От: " ++ address a ++ lit ", "
          ++ lit "Кому: " ++ get_recipients_str e ++ lit ", "
          ++ lit "Тема: " ++ subject e ++ [NEWLINE])
  end.

(** The loop [for email in sent_emails: log_file.write(...)] *)
Fixpoint write_log (sent_emails : list loc) : M unit :=
  match sent_emails with
  | [] => mret tt
  | l :: rest =>
      e ← get l;
      text ← lift (log_line e);
      write text;;
      write_log rest
  end.

Definition send_email (self : EmailService.t) : M (list loc) :=
  sent_emails ← EmailService.send_email self;
  open_append;;
  write_log sent_emails;;
  mret sent_emails.

End LoggingEmailService.

(** ** The cleaning of a text, in the words of its description

    Tabs and newlines become spaces; every maximal run of whitespace
    becomes one space; whitespace at both ends is removed. *)

Definition replace_tab_newline (s : pystr) : pystr :=
  List.map (fun c => if (c =? TAB) || (c =? NEWLINE) then SPACE else c) s.

(** [in_run]: the previous character was whitespace. *)
Fixpoint collapse_runs (in_run : bool) (s : pystr) : pystr :=
  match s with
  | [] => []
  | c :: s' =>
      if isspace c
      then (if in_run then collapse_runs true s' else SPACE :: collapse_runs true s')
      else c :: collapse_runs false s'
  end.

Definition trim (s : pystr) : pystr := rev (lstrip (rev (lstrip s))).

Definition clean_text_spec (text : pystr) : pystr :=
  trim (collapse_runs false (replace_tab_newline text)).

(** ** What the claims speak of *)

(** A word of a text: not empty and free of whitespace. *)
Definition word_like (w : pystr) : Prop :=
  w <> [] /\ forallb (fun c => negb (isspace c)) w = true.

(** A text that UTF-8 can encode: it holds no surrogate. *)
Definition encodable (s : pystr) : Prop :=
  forall c, In c s -> is_surrogate c = false.

(** A normalized address the constructor accepts. *)
Definition valid_address (n : pystr) : Prop :=
  In AT n
  /\ ((exists p, n = p ++ lit ".com") \/ (exists p, n = p ++ lit ".ru")
      \/ (exists p, n = p ++ lit ".net")).

(** The cached short form of a body, for the default [n = 10]. *)
Definition short_form (b : pystr) : option pystr :=
  match b with
  | [] => None
  | _ => if (length b <=? 10)%nat then Some b else Some (firstn 10 b ++ lit "...")
  end.

(** The message [e] once [prepare()] has run on it. *)
Definition prepared (e : Email) : Email :=
  {| subject := clean_text (subject e);
     body := clean_text (body e);
     sender := sender e;
     recipients := recipients e;
     date := date e;
     short_body := short_form (clean_text (body e));
     status :=
       if truthy (clean_text (subject e)) && truthy (clean_text (body e))
          && bool_decide (is_Some (sender e)) && truthy (recipients e)
       then READY else INVALID |}.

(** The copy made for recipient [r] of the message [e] on the day [d]. *)
Definition sent_copy (e : Email) (d : Date) (r : EmailAddress) : Email :=
  {| subject := subject e;
     body := body e;
     sender := sender e;
     recipients := [r];
     date := Some (strftime_Ymd d);
     short_body := short_body e;
     status := if Status_eqb (status e) READY then SENT else FAILED |}.

(** The world after the copies of [e] were made for the recipients [rs]. *)
Definition after_send (e : Email) (rs : list EmailAddress) (w : World) : World :=
  {| heap := heap w ++ imap (fun i r => sent_copy e (clock w (reads w + i)%nat) r) rs;
     clock := clock w;
     reads := (reads w + length rs)%nat;
     send_log := send_log w |}.

(** A text of the form YYYY-MM-DD. *)
Definition is_digit (c : N) : Prop := 48 <= c <= 57.
Definition is_Ymd (s : pystr) : Prop :=
  exists y1 y2 y3 y4 m1 m2 d1 d2,
    s = [y1; y2; y3; y4] ++ lit "-" ++ [m1; m2] ++ lit "-" ++ [d1; d2]
    /\ Forall is_digit [y1; y2; y3; y4; m1; m2; d1; d2].

(** The log line of the copy made of [e], whose sender is [a], for the
    recipient [r] on the day [d]. *)
Definition sent_line (e : Email) (a : EmailAddress) (d : Date) (r : EmailAddress)
    : pystr :=
  lit "[" ++ strftime_Ymd d ++ lit "] Status: "
  ++ Status_value (if Status_eqb (status e) READY then SENT else FAILED)
  ++ lit ", От: " ++ address a ++ lit ", Кому: " ++ address r
  ++ lit ", Тема: " ++ subject e ++ [NEWLINE].

(** ** Sample values *)

Definition a_com : EmailAddress := {| _address := lit "a@a.com" |}.
Definition b_com : EmailAddress := {| _address := lit "b@b.com" |}.
Definition c_com : EmailAddress := {| _address := lit "c@c.com" |}.

(** A message that was prepared, with two recipients. *)
Definition ready_email : Email :=
  Email_init (lit "Hello") (lit "Msg") (Some a_com) (Many [b_com; c_com])
    None None READY.

(** A draft whose subject is one space. *)
Definition blank_subject_email : Email :=
  Email_init (lit " ") (lit "x") (Some a_com) (One b_com) None None DRAFT.

(** A draft that was not cleaned yet. *)
Definition raw_email : Email :=
  Email_init (lit "  Hello   world  ")
    (lit " Test   body" ++ [NEWLINE] ++ lit "with   spaces ")
    (Some a_com) (One b_com) None None DRAFT.

Definition the_3rd_of_November : Date := {| year := 2026; month := 11; day := 3 |}.

(** A world that holds one message, on one day, without a log file. *)
Definition world_of (e : Email) : World :=
  {| heap := [e]; clock := fun _ => the_3rd_of_November; reads := 0;
     send_log := None |}.

Definition service : EmailService.t := {| EmailService.email := 0%nat |}.

(** The address accepted by the constructor that [masked] cannot split. *)
Definition two_ats : pystr := lit "a@b@c.com".

(** ** More of the code, and what its properties speak of *)

(** [Email.__repr__] returns [self.__str__()]. *)
Definition Email_repr (self : Email) : Res pystr := Email_str self.

(** The number of [@] of a text. *)
Definition count_at (s : pystr) : nat := count_occ N.eq_dec s AT.

(** A text whose whitespace is single spaces between words: [prev_ws]
    says that the text before ended in whitespace (or is empty). *)
Fixpoint well_spaced (prev_ws : bool) (s : pystr) : bool :=
  match s with
  | [] => negb prev_ws
  | c :: t =>
      if isspace c then (c =? SPACE) && negb prev_ws && well_spaced true t
      else well_spaced false t
  end.

(** The number a text of decimal digits stands for. *)
Definition digits_value (s : pystr) : N :=
  fold_left (fun acc c => 10 * acc + (c - 48)) s 0.

(** A message without sender, with one recipient. *)
Definition no_sender_email : Email :=
  Email_init (lit "Hello") (lit "Msg") None (One b_com) None None READY.

(** A message whose subject ends in the lone surrogate U+DC80. *)
Definition surrogate_email : Email :=
  Email_init (lit "Hi" ++ [56448]) (lit "Msg") (Some a_com) (One b_com)
    None None READY.

(** A world whose log file has text already. *)
Definition world_with_log (e : Email) : World :=
  {| heap := [e]; clock := fun _ => the_3rd_of_November; reads := 0;
     send_log := Some (lit "old line" ++ [NEWLINE]) |}.

(** * Properties *)

(** ** Strings *)

Lemma word_like_snoc w c :
  forallb (fun c => negb (isspace c)) w = true -> isspace c = false ->
  word_like (w ++ [c]).
Proof.
  intros Hw Hc. split.
  - destruct w; discriminate.
  - rewrite forallb_app, Hw. simpl. now rewrite Hc.
Qed.

Lemma split_from_words s : forall word,
  forallb (fun c => negb (isspace c)) word = true ->
  Forall word_like (split_from word s).
Proof.
  induction s as [|c s IH]; intros word Hw; simpl.
  - destruct word; constructor; [split; [discriminate | exact Hw] | constructor].
  - destruct (isspace c) eqn:Hc.
    + destruct word as [|a word'].
      * now apply IH.
      * constructor; [split; [discriminate | exact Hw] | now apply IH].
    + apply IH. now apply word_like_snoc.
Qed.

Lemma split_words s : Forall word_like (split s).
Proof. now apply split_from_words. Qed.

Lemma join_nonempty sep w l : w <> [] -> join sep (w :: l) <> [].
Proof.
  intros Hw. simpl. destruct l; [exact Hw |].
  destruct w; [congruence | discriminate].
Qed.

Lemma join_words_nil l :
  Forall word_like l -> join (lit " ") l = [] -> l = [].
Proof.
  intros Hl Hj. destruct Hl as [|w l [Hw _] _]; [reflexivity |].
  now apply join_nonempty in Hj.
Qed.

Lemma join_cons sep w l :
  l <> [] -> join sep (w :: l) = w ++ sep ++ join sep l.
Proof. destruct l; [congruence | reflexivity]. Qed.

(** Whitespace is replaced by whitespace only, so the words stay. *)
Lemma replace_twice s :
  replace TAB SPACE (replace NEWLINE SPACE s) = replace_tab_newline s.
Proof.
  unfold replace, replace_tab_newline. rewrite List.map_map.
  apply List.map_ext. intros c.
  destruct (c =? NEWLINE) eqn:E1; destruct (c =? TAB) eqn:E2; reflexivity.
Qed.

Lemma split_from_replace s : forall word,
  split_from word (replace_tab_newline s) = split_from word s.
Proof.
  induction s as [|c s IH]; intros word; [reflexivity |].
  simpl. destruct ((c =? TAB) || (c =? NEWLINE)) eqn:E.
  - assert (Hc : isspace c = true).
    { apply orb_true_iff in E as [E|E]; apply N.eqb_eq in E; now subst. }
    rewrite Hc. change (isspace SPACE) with true. cbv iota.
    now rewrite IH.
  - now rewrite !IH.
Qed.

Lemma clean_text_split text : clean_text text = join (lit " ") (split text).
Proof.
  unfold clean_text, split. now rewrite replace_twice, split_from_replace.
Qed.

Lemma split_from_app w : forall word s,
  forallb (fun c => negb (isspace c)) w = true ->
  split_from word (w ++ s) = split_from (word ++ w) s.
Proof.
  induction w as [|c w IH]; intros word s Hw; simpl.
  - now rewrite app_nil_r.
  - simpl in Hw. apply andb_true_iff in Hw as [Hc Hw].
    apply negb_true_iff in Hc. rewrite Hc, IH by exact Hw.
    now rewrite <- app_assoc.
Qed.

Lemma split_from_space word s :
  split_from word (lit " " ++ s)
  = match word with [] => split_from [] s | _ => word :: split_from [] s end.
Proof. reflexivity. Qed.

(** Splitting what was joined with single spaces gives the words back. *)
Lemma split_join l :
  Forall word_like l -> split (join (lit " ") l) = l.
Proof.
  unfold split. induction 1 as [|w l [Hne Hw] Hl IH]; [reflexivity |].
  destruct l as [|w' l'].
  - simpl. rewrite <- (app_nil_r w) at 1. rewrite split_from_app by exact Hw.
    simpl. destruct w; [congruence | reflexivity].
  - rewrite join_cons by discriminate.
    rewrite split_from_app by exact Hw.
    rewrite app_nil_l, split_from_space, IH.
    destruct w; [congruence | reflexivity].
Qed.

Lemma clean_text_idempotent text : clean_text (clean_text text) = clean_text text.
Proof.
  rewrite (clean_text_split (clean_text text)), clean_text_split.
  now rewrite split_join by apply split_words.
Qed.

Lemma rstrip_nil_iff s : rstrip s = [] <-> forallb isspace s = true.
Proof.
  induction s as [|c s IH]; simpl; [tauto |].
  destruct (rstrip s) eqn:Hr.
  - destruct (isspace c); simpl.
    + split; intros _; [now apply IH | reflexivity].
    + split; discriminate.
  - split; [discriminate |]. intros H. apply andb_true_iff in H as [_ H].
    apply IH in H. discriminate.
Qed.

Lemma rstrip_cons c s :
  rstrip (c :: s)
  = if forallb isspace s then (if isspace c then [] else [c]) else c :: rstrip s.
Proof.
  simpl. destruct (forallb isspace s) eqn:Hs.
  - apply rstrip_nil_iff in Hs. now rewrite Hs.
  - destruct (rstrip s) eqn:Hr; [| reflexivity].
    apply rstrip_nil_iff in Hr. congruence.
Qed.

Lemma lstrip_app t u :
  lstrip (t ++ u) = if forallb isspace t then lstrip u else lstrip t ++ u.
Proof.
  induction t as [|c t IH]; simpl; [reflexivity |].
  destruct (isspace c); simpl; [exact IH | reflexivity].
Qed.

Lemma forallb_rev {A} (f : A -> bool) l : forallb f (rev l) = forallb f l.
Proof.
  induction l as [|a l IH]; [reflexivity |].
  simpl. rewrite forallb_app, IH. simpl. rewrite andb_true_r. apply andb_comm.
Qed.

(** Removing trailing whitespace is removing leading whitespace of the
    reversed string. *)
Lemma rstrip_rev s : rstrip s = rev (lstrip (rev s)).
Proof.
  induction s as [|c s IH]; [reflexivity |].
  rewrite rstrip_cons. simpl rev. rewrite lstrip_app, forallb_rev.
  destruct (forallb isspace s).
  - simpl. now destruct (isspace c).
  - now rewrite rev_app_distr, <- IH.
Qed.

Lemma strip_trim s : strip s = trim s.
Proof. apply rstrip_rev. Qed.

Lemma lstrip_collapse_in_run s :
  lstrip (collapse_runs true s) = collapse_runs true s.
Proof.
  induction s as [|c s IH]; [reflexivity |].
  simpl. destruct (isspace c) eqn:Hc; [exact IH |]. simpl. now rewrite Hc.
Qed.

Lemma lstrip_collapse s :
  lstrip (collapse_runs false s) = collapse_runs true s.
Proof.
  destruct s as [|c s]; [reflexivity |].
  simpl. destruct (isspace c) eqn:Hc; simpl.
  - apply lstrip_collapse_in_run.
  - now rewrite Hc.
Qed.

Lemma rstrip_word_cons c t : isspace c = false -> rstrip (c :: t) = c :: rstrip t.
Proof. intros Hc. simpl. rewrite Hc. now destruct (rstrip t). Qed.

(** The words joined by single spaces are the collapsed text without its
    trailing whitespace; [word] is the word being read. *)
Lemma join_split_from s :
  (forall word, word_like word ->
     join (lit " ") (split_from word s) = word ++ rstrip (collapse_runs false s))
  /\ join (lit " ") (split_from [] s) = rstrip (collapse_runs true s).
Proof.
  induction s as [|c s [IH1 IH2]]; simpl.
  - split; [| reflexivity]. intros word [Hne _].
    destruct word; [congruence |]. simpl. now rewrite app_nil_r.
  - destruct (isspace c) eqn:Hc.
    + split; [| exact IH2]. intros word [Hne Hw].
      assert (Hj : join (lit " ") (word :: split_from [] s)
                   = word ++ rstrip (SPACE :: collapse_runs true s)).
      { rewrite rstrip_cons. change (isspace SPACE) with true. cbv iota.
        destruct (split_from [] s) as [|w' l'] eqn:Hs.
        - simpl in IH2. symmetry in IH2. apply rstrip_nil_iff in IH2.
          rewrite IH2. simpl. now rewrite app_nil_r.
        - assert (Hwords : Forall word_like (w' :: l')).
          { rewrite <- Hs. now apply split_from_words. }
          destruct (forallb isspace (collapse_runs true s)) eqn:Hall.
          + apply rstrip_nil_iff in Hall. rewrite <- IH2 in Hall.
            apply join_words_nil in Hall; [discriminate | exact Hwords].
          + rewrite join_cons by discriminate. now rewrite IH2. }
      destruct word; [congruence | exact Hj].
    + assert (Hsnoc : forall word,
                forallb (fun c => negb (isspace c)) word = true ->
                join (lit " ") (split_from (word ++ [c]) s)
                = word ++ rstrip (c :: collapse_runs false s)).
      { intros word Hw. rewrite IH1 by now apply word_like_snoc.
        rewrite rstrip_word_cons by exact Hc. now rewrite <- app_assoc. }
      split; [intros word [_ Hw]; now apply Hsnoc | now apply (Hsnoc [])].
Qed.

Lemma clean_text_refines text : clean_text text = clean_text_spec text.
Proof.
  rewrite clean_text_split. unfold clean_text_spec, split.
  rewrite <- strip_trim. unfold strip. rewrite lstrip_collapse.
  rewrite <- (proj2 (join_split_from _)).
  now rewrite split_from_replace.
Qed.

(** ** Addresses *)

Lemma contains_In x s : contains x s = true <-> In x s.
Proof.
  unfold contains. rewrite existsb_exists. split.
  - intros [y [Hy E]]. apply N.eqb_eq in E. now subst.
  - intros H. exists x. split; [exact H | apply N.eqb_refl].
Qed.

Lemma startswith_prefix p : forall s,
  startswith s p = true <-> exists r, s = p ++ r.
Proof.
  induction p as [|a p IH]; intros s; simpl.
  - split; [intros _; now exists s | intros _; now destruct s].
  - destruct s as [|b s].
    + split; [discriminate | intros [r Hr]; discriminate].
    + simpl. rewrite andb_true_iff, N.eqb_eq, IH. split.
      * intros [-> [r ->]]. now exists r.
      * intros [r Hr]. injection Hr as -> ->. split; [reflexivity | now exists r].
Qed.

Lemma endswith_suffix s suffix :
  endswith s suffix = true <-> exists p, s = p ++ suffix.
Proof.
  unfold endswith. rewrite andb_true_iff, Nat.leb_le, startswith_prefix. split.
  - intros [Hlen [r Hr]].
    exists (firstn (length s - length suffix) s).
    assert (Hl : length (skipn (length s - length suffix) s) = length suffix).
    { rewrite length_skipn. lia. }
    rewrite Hr, length_app in Hl.
    assert (r = []) as -> by (destruct r; [reflexivity | simpl in Hl; lia]).
    rewrite app_nil_r in Hr.
    pose proof (firstn_skipn (length s - length suffix) s) as Hfs.
    rewrite Hr in Hfs. now symmetry.
  - intros [p ->]. rewrite length_app. split; [lia |].
    exists []. rewrite app_nil_r.
    replace (length p + length suffix - length suffix)%nat with (length p) by lia.
    now rewrite skipn_app, Nat.sub_diag, skipn_all.
Qed.

Lemma _check_correct_email_valid n :
  _check_correct_email n = true <-> valid_address n.
Proof.
  unfold _check_correct_email, valid_address.
  rewrite andb_true_iff, !orb_true_iff, contains_In, !endswith_suffix.
  tauto.
Qed.

Lemma EmailAddress_init_cases unicode_lower raw :
  let n := strip (lower unicode_lower raw) in
  (valid_address n /\ EmailAddress_init unicode_lower raw = Ok {| _address := n |})
  \/ (~ valid_address n
      /\ EmailAddress_init unicode_lower raw
         = Raise (ValueError (lit "Некорректный email: " ++ raw))).
Proof.
  intros n. unfold EmailAddress_init, normalize_address. fold n.
  destruct (_check_correct_email n) eqn:Hc; simpl.
  - left. split; [now apply _check_correct_email_valid | reflexivity].
  - right. split; [| reflexivity].
    intros Hv. apply _check_correct_email_valid in Hv. congruence.
Qed.

(** ** Running a method *)

Lemma bind_ok {A B} (m : M A) (f : A -> M B) w a w' :
  m w = (Ok a, w') -> (m ≫= f) w = f a w'.
Proof. intros H. unfold mbind, M_bind. now rewrite H. Qed.

Lemma bind_raise {A B} (m : M A) (f : A -> M B) w x w' :
  m w = (Raise x, w') -> (m ≫= f) w = (Raise x, w').
Proof. intros H. unfold mbind, M_bind. now rewrite H. Qed.

Lemma get_ok w l e : heap w !! l = Some e -> get l w = (Ok e, w).
Proof. intros H. unfold get. now rewrite H. Qed.

Lemma setattr_ok w l e f :
  heap w !! l = Some e ->
  setattr l f w = (Ok tt, with_heap (<[l := f e]> (heap w)) w).
Proof. intros H. unfold setattr. now rewrite H. Qed.

Lemma lookup_with_heap_insert w l (e e' : Email) :
  heap w !! l = Some e ->
  heap (with_heap (<[l := e']> (heap w)) w) !! l = Some e'.
Proof.
  intros H. simpl. apply list_lookup_insert_eq. now apply lookup_lt_Some in H.
Qed.

Lemma with_heap_twice h h' w : with_heap h (with_heap h' w) = with_heap h w.
Proof. reflexivity. Qed.

(** ** [prepare] *)

Lemma clean_data_ok w l e :
  heap w !! l = Some e ->
  clean_data l w
  = (Ok l, with_heap (<[l := with_body (clean_text (body e))
                              (with_subject (clean_text (subject e)) e)]> (heap w)) w).
Proof.
  intros H. unfold clean_data.
  rewrite (bind_ok _ _ _ _ _ (get_ok _ _ _ H)).
  rewrite (bind_ok _ _ _ _ _ (setattr_ok _ _ _ _ H)).
  pose proof (lookup_with_heap_insert w l e
                (with_subject (clean_text (subject e)) e) H) as H1.
  rewrite (bind_ok _ _ _ _ _ (get_ok _ _ _ H1)).
  rewrite (bind_ok _ _ _ _ _ (setattr_ok _ _ _ _ H1)).
  unfold mret, M_ret. rewrite with_heap_twice. simpl heap.
  now rewrite list_insert_insert_eq.
Qed.

Lemma short_form_cases (b : pystr) :
  short_form b
  = if negb (truthy b) then None
    else if (Z.of_nat (length b) <=? 10)%Z then Some b
         else Some (slice_to 10 b ++ lit "...").
Proof.
  unfold short_form, slice_to. destruct b as [|c b]; [reflexivity |].
  cbv [truthy negb]. change (0 <=? 10)%Z with true. cbv iota.
  change (Z.to_nat 10) with 10%nat.
  destruct (Nat.leb_spec (length (c :: b)) 10);
    destruct (Z.leb_spec (Z.of_nat (length (c :: b))) 10); try reflexivity; lia.
Qed.

Lemma add_short_body_ok w l e :
  heap w !! l = Some e ->
  add_short_body l 10 w
  = (Ok l, with_heap (<[l := with_short_body (short_form (body e)) e]> (heap w)) w).
Proof.
  intros H. unfold add_short_body.
  rewrite (bind_ok _ _ _ _ _ (get_ok _ _ _ H)).
  rewrite short_form_cases.
  destruct (negb (truthy (body e)));
    [| destruct (Z.of_nat (length (body e)) <=? 10)%Z];
    now rewrite (bind_ok _ _ _ _ _ (setattr_ok _ _ _ _ H)).
Qed.

Lemma prepare_ok w l e :
  heap w !! l = Some e ->
  prepare l w = (Ok l, with_heap (<[l := prepared e]> (heap w)) w).
Proof.
  intros H. unfold prepare.
  rewrite (bind_ok _ _ _ _ _ (clean_data_ok _ _ _ H)).
  set (e1 := with_body _ _).
  pose proof (lookup_with_heap_insert w l e e1 H) as H1.
  rewrite (bind_ok _ _ _ _ _ (get_ok _ _ _ H1)).
  pose (st := if truthy (subject e1) && truthy (body e1)
                 && bool_decide (is_Some (sender e1)) && truthy (recipients e1)
              then READY else INVALID).
  assert (Hset : (if truthy (subject e1) && truthy (body e1)
                     && bool_decide (is_Some (sender e1)) && truthy (recipients e1)
                  then setattr l (with_status READY)
                  else setattr l (with_status INVALID))
                   (with_heap (<[l := e1]> (heap w)) w)
                 = (Ok tt, with_heap (<[l := with_status st e1]> (heap w)) w)).
  { subst st. destruct (_ && _);
      rewrite (setattr_ok _ _ _ _ H1), with_heap_twice; simpl heap;
      now rewrite list_insert_insert_eq. }
  rewrite (bind_ok _ _ _ _ _ Hset).
  pose proof (lookup_with_heap_insert w l e (with_status st e1) H) as H2.
  rewrite (bind_ok _ _ _ _ _ (add_short_body_ok _ _ _ H2)).
  unfold mret, M_ret. rewrite with_heap_twice. simpl heap.
  now rewrite list_insert_insert_eq.
Qed.

Lemma prepare_dangling w l :
  heap w !! l = None -> prepare l w = (Raise Dangling, w).
Proof.
  intros H. unfold prepare, clean_data, mbind, M_bind, get. now rewrite H.
Qed.

Lemma prepared_idempotent e : prepared (prepared e) = prepared e.
Proof.
  unfold prepared. simpl. rewrite !clean_text_idempotent. reflexivity.
Qed.

(** ** [send_email] *)

Lemma snoc_lookup {A} (h : list A) x : (h ++ [x]) !! length h = Some x.
Proof. now apply list_lookup_middle. Qed.

Lemma snoc_insert {A} (h : list A) x y : <[length h := y]> (h ++ [x]) = h ++ [y].
Proof.
  replace (length h) with (length h + 0)%nat at 1 by lia.
  now rewrite insert_app_r.
Qed.

(** One turn of the loop: a copy is allocated, then changed in place. *)
Lemma send_loop_cons self e r rs w sent :
  heap w !! EmailService.email self = Some e ->
  EmailService.send_loop self (r :: rs) sent w
  = EmailService.send_loop self rs (sent ++ [length (heap w)])
      {| heap := heap w ++ [sent_copy e (clock w (reads w)) r];
         clock := clock w; reads := S (reads w); send_log := send_log w |}.
Proof.
  intros H. destruct w as [h ck rd lg]. simpl in *.
  unfold mbind, M_bind, deepcopy, setattr, EmailService.add_send_date, today, get, mret, M_ret.
  unfold mbind, M_bind. simpl. rewrite H. simpl.
  rewrite snoc_lookup. simpl. rewrite snoc_insert, snoc_lookup. simpl.
  rewrite snoc_insert, (lookup_app_l_Some _ _ _ _ H).
  destruct (Status_eqb (status e) READY) eqn:Hst; simpl;
    rewrite snoc_lookup; simpl; rewrite snoc_insert;
    unfold sent_copy; simpl; now rewrite Hst.
Qed.

Lemma after_send_nil e w : after_send e [] w = w.
Proof.
  destruct w. unfold after_send. simpl. now rewrite app_nil_r, Nat.add_0_r.
Qed.

Lemma send_loop_ok self e rs : forall w sent,
  heap w !! EmailService.email self = Some e ->
  EmailService.send_loop self rs sent w
  = (Ok (sent ++ seq (length (heap w)) (length rs)), after_send e rs w).
Proof.
  induction rs as [|r rs IH]; intros w sent H.
  - simpl. now rewrite app_nil_r, after_send_nil.
  - rewrite (send_loop_cons _ _ _ _ _ _ H).
    rewrite IH by (simpl; now apply lookup_app_l_Some).
    simpl. rewrite length_app. simpl. rewrite <- app_assoc. simpl.
    rewrite Nat.add_1_r. f_equal.
    unfold after_send. simpl. rewrite <- app_assoc. simpl.
    rewrite Nat.add_0_r. f_equal; [| lia].
    do 2 f_equal. apply imap_ext. intros i x _. simpl.
    now rewrite Nat.add_succ_r.
Qed.

Lemma send_email_ok self e w :
  heap w !! EmailService.email self = Some e ->
  EmailService.send_email self w
  = (Ok (seq (length (heap w)) (length (recipients e))),
     after_send e (recipients e) w).
Proof.
  intros H. unfold EmailService.send_email.
  rewrite (bind_ok _ _ _ _ _ (get_ok _ _ _ H)).
  destruct (recipients e) as [|r rs] eqn:Hr.
  - simpl. unfold mret, M_ret. now rewrite after_send_nil.
  - cbv [truthy negb]. now rewrite (send_loop_ok _ _ _ _ _ H).
Qed.

Lemma send_email_dangling self w :
  heap w !! EmailService.email self = None -> EmailService.send_email self w = (Raise Dangling, w).
Proof. intros H. unfold EmailService.send_email, mbind, M_bind, get. now rewrite H. Qed.

Lemma lookup_after_send_old e rs w l x :
  heap w !! l = Some x -> heap (after_send e rs w) !! l = Some x.
Proof. intros H. simpl. now apply lookup_app_l_Some. Qed.

Lemma lookup_after_send_new e rs w i r :
  rs !! i = Some r ->
  heap (after_send e rs w) !! (length (heap w) + i)%nat
  = Some (sent_copy e (clock w (reads w + i)%nat) r).
Proof.
  intros H. simpl. rewrite lookup_app_r by lia.
  replace (length (heap w) + i - length (heap w))%nat with i by lia.
  now rewrite list_lookup_imap, H.
Qed.

Lemma digit_is_digit n : is_digit (digit n).
Proof.
  unfold is_digit, digit.
  assert (H : n mod 10 < 10) by (apply N.mod_upper_bound; discriminate).
  revert H. generalize (n mod 10). intros m H. lia.
Qed.

Lemma strftime_Ymd_shape d : is_Ymd (strftime_Ymd d).
Proof.
  unfold is_Ymd, strftime_Ymd. do 8 eexists. split; [reflexivity |].
  repeat constructor; apply digit_is_digit.
Qed.

(** ** [LoggingEmailService.send_email] *)

Lemma first_surrogate_None s : first_surrogate s = None <-> encodable s.
Proof.
  unfold encodable. induction s as [|c s IH]; simpl.
  - split; [intros _ c [] | reflexivity].
  - destruct (is_surrogate c) eqn:Hc.
    + split; [discriminate |]. intros H. specialize (H c (or_introl eq_refl)).
      congruence.
    + destruct (first_surrogate s); simpl.
      * split; [discriminate |]. intros H.
        assert (Hs : forall x, In x s -> is_surrogate x = false)
          by (intros x Hx; apply H; now right).
        apply IH in Hs. discriminate.
      * split; [| reflexivity]. intros _ x [<-|Hx]; [exact Hc |].
        now apply (proj1 IH).
Qed.

Lemma encodable_app s t : encodable s -> encodable t -> encodable (s ++ t).
Proof.
  intros Hs Ht c Hc. apply in_app_or in Hc as [Hc|Hc]; [now apply Hs | now apply Ht].
Qed.

Lemma encodable_ascii s : forallb is_ascii s = true -> encodable s.
Proof.
  intros H c Hc. rewrite forallb_forall in H. specialize (H c Hc).
  unfold is_ascii in H. apply N.ltb_lt in H. unfold is_surrogate.
  destruct (N.leb_spec 55296 c); [lia | reflexivity].
Qed.

Lemma encodable_forallb s :
  forallb (fun c => negb (is_surrogate c)) s = true -> encodable s.
Proof.
  intros H c Hc. rewrite forallb_forall in H. specialize (H c Hc).
  now apply negb_true_iff in H.
Qed.

Lemma strftime_Ymd_encodable d : encodable (strftime_Ymd d).
Proof.
  intros c Hc.
  assert (Hle : c <= 57).
  { unfold strftime_Ymd in Hc. simpl in Hc.
    repeat (destruct Hc as [<-|Hc];
            [first [apply digit_is_digit | vm_compute; discriminate] |]).
    destruct Hc. }
  unfold is_surrogate. destruct (N.leb_spec 55296 c); [lia | reflexivity].
Qed.

Lemma Status_value_encodable st : encodable (Status_value st).
Proof. apply encodable_ascii. now destruct st. Qed.

(** The log line of a copy can be encoded when the subject and the two
    addresses in it can. *)
Lemma sent_line_encodable e a d r :
  encodable (subject e) -> encodable (address a) -> encodable (address r) ->
  first_surrogate (sent_line e a d r) = None.
Proof.
  intros Hs Ha Hr. apply first_surrogate_None. unfold sent_line.
  apply encodable_app; [apply encodable_forallb; reflexivity |].
  apply encodable_app; [apply strftime_Ymd_encodable |].
  apply encodable_app; [apply encodable_forallb; reflexivity |].
  apply encodable_app; [apply Status_value_encodable |].
  repeat apply encodable_app;
    first [assumption | apply encodable_forallb; reflexivity].
Qed.

Lemma write_ok text w :
  first_surrogate text = None ->
  write text w = (Ok tt, with_send_log (Some (default [] (send_log w) ++ text)) w).
Proof. intros H. unfold write. now rewrite H. Qed.

Lemma write_log_ok ls : forall lines w content,
  Forall2 (fun l t => exists c, heap w !! l = Some c
                                /\ LoggingEmailService.log_line c = Ok t
                                /\ first_surrogate t = None) ls lines ->
  send_log w = Some content ->
  LoggingEmailService.write_log ls w = (Ok tt, with_send_log (Some (content ++ concat lines)) w).
Proof.
  induction ls as [|l ls IH]; intros lines w content HF Hlog.
  - inversion HF; subst. simpl. unfold mret, M_ret.
    destruct w; simpl in *. now rewrite app_nil_r, Hlog.
  - inversion HF as [|? t ? lines' [c [Hc [Ht Henc]]] HF']; subst. simpl.
    rewrite (bind_ok _ _ _ _ _ (get_ok _ _ _ Hc)).
    unfold lift at 1. unfold mbind at 1, M_bind at 1. rewrite Ht.
    unfold mbind at 1, M_bind at 1. rewrite (write_ok _ _ Henc), Hlog. simpl default.
    rewrite (IH lines' _ (content ++ t)); [| exact HF' | reflexivity].
    now rewrite <- app_assoc.
Qed.

Lemma log_line_sent_copy e a d r :
  sender e = Some a -> LoggingEmailService.log_line (sent_copy e d r) = Ok (sent_line e a d r).
Proof.
  intros Ha. unfold LoggingEmailService.log_line.
  change (sender (sent_copy e d r)) with (sender e). rewrite Ha. reflexivity.
Qed.

Lemma logging_send_email_ok self e a w :
  heap w !! EmailService.email self = Some e -> sender e = Some a ->
  encodable (subject e) -> encodable (address a) ->
  Forall (fun r => encodable (address r)) (recipients e) ->
  LoggingEmailService.send_email self w
  = (Ok (seq (length (heap w)) (length (recipients e))),
     with_send_log
       (Some (default [] (send_log w)
              ++ concat (imap (fun i r => sent_line e a (clock w (reads w + i)%nat) r)
                           (recipients e))))
       (after_send e (recipients e) w)).
Proof.
  intros H Ha Hsub Haddr Hrs. unfold LoggingEmailService.send_email.
  rewrite (bind_ok _ _ _ _ _ (send_email_ok _ _ _ H)).
  unfold open_append at 1. unfold mbind at 1, M_bind at 1.
  erewrite bind_ok; [unfold mret, M_ret; reflexivity |].
  erewrite write_log_ok; [reflexivity | | reflexivity].
  apply Forall2_same_length_lookup_2.
  - now rewrite length_seq, length_imap.
  - intros i l t Hl Ht. apply lookup_seq in Hl as [-> Hi].
    rewrite list_lookup_imap in Ht.
    destruct (recipients e !! i) as [r|] eqn:Hr; [| discriminate].
    injection Ht as <-.
    exists (sent_copy e (clock w (reads w + i)%nat) r). split; [| split].
    + change (heap (with_send_log _ ?w')) with (heap w').
      now apply lookup_after_send_new.
    + now apply log_line_sent_copy.
    + apply sent_line_encodable; try assumption.
      rewrite List.Forall_forall in Hrs. apply Hrs.
      apply list_elem_of_In. apply list_elem_of_lookup. eauto.
Qed.

Lemma logging_send_email_empty self e w :
  heap w !! EmailService.email self = Some e -> recipients e = [] ->
  LoggingEmailService.send_email self w
  = (Ok [], with_send_log (Some (default [] (send_log w))) w).
Proof.
  intros H Hr. unfold LoggingEmailService.send_email.
  rewrite (bind_ok _ _ _ _ _ (send_email_ok _ _ _ H)).
  rewrite Hr, after_send_nil. reflexivity.
Qed.

Lemma truthy_true {A} (l : list A) : truthy l = true <-> l <> [].
Proof. destruct l; simpl; split; congruence. Qed.

Lemma Status_eqb_eq a b : Status_eqb a b = true <-> a = b.
Proof. destruct a, b; simpl; split; congruence. Qed.

Lemma split_on_no_sep sep s : ~ In sep s -> split_on sep s = [s].
Proof.
  induction s as [|c s IH]; intros Hn; [reflexivity |]. simpl.
  destruct (N.eqb_spec c sep) as [->|Hc].
  - exfalso. apply Hn. now left.
  - rewrite IH; [reflexivity |]. intros Hin. apply Hn. now right.
Qed.

Lemma split_on_app sep l r :
  ~ In sep l -> split_on sep (l ++ sep :: r) = l :: split_on sep r.
Proof.
  induction l as [|c l IH]; intros Hn; simpl.
  - now rewrite N.eqb_refl.
  - destruct (N.eqb_spec c sep) as [->|Hc].
    + exfalso. apply Hn. now left.
    + rewrite IH; [reflexivity |]. intros Hin. apply Hn. now right.
Qed.

(** With exactly one [@], the mask is made of the two sides of it. *)
Lemma masked_one_at local domain :
  ~ In AT local -> ~ In AT domain ->
  masked {| _address := local ++ AT :: domain |}
  = Ok (firstn 2 local ++ lit "***@" ++ domain).
Proof.
  intros Hl Hd. unfold masked. simpl _address.
  now rewrite split_on_app, split_on_no_sep.
Qed.

(** With two [@] or more, the unpacking of the parts raises. *)
Lemma masked_more_ats p q r :
  ~ In AT p -> ~ In AT q ->
  masked {| _address := p ++ AT :: q ++ AT :: r |}
  = Raise (ValueError (lit "too many values to unpack (expected 2)")).
Proof.
  intros Hp Hq. unfold masked. simpl _address.
  rewrite split_on_app by exact Hp. rewrite split_on_app by exact Hq.
  destruct (split_on AT r) eqn:Hs; [| reflexivity].
  destruct r as [|c r]; simpl in Hs; [discriminate |].
  destruct (c =? AT); [discriminate |]. destruct (split_on AT r); discriminate.
Qed.

Lemma map_imap {A B C} (g : B -> C) (f : nat -> A -> B) l :
  List.map g (imap f l) = imap (fun i x => g (f i x)) l.
Proof.
  revert f. induction l as [|x l IH]; intros f; [reflexivity |].
  simpl. now rewrite IH.
Qed.

Lemma startswith_app p : forall x y,
  startswith (p ++ x) (p ++ y) = startswith x y.
Proof.
  induction p as [|c p IH]; intros x y; [reflexivity |].
  simpl. now rewrite N.eqb_refl, IH.
Qed.

Lemma Ok_inj {A} (x y : A) : Ok x = Ok y -> x = y.
Proof. congruence. Qed.

Lemma logging_send_email_no_sender self e r rs w :
  heap w !! EmailService.email self = Some e -> sender e = None -> recipients e = r :: rs ->
  LoggingEmailService.send_email self w
  = (Raise (AttributeError (lit "'NoneType' object has no attribute 'address'")),
     with_send_log (Some (default [] (send_log w)))
       (after_send e (recipients e) w)).
Proof.
  intros H Hs Hr. unfold LoggingEmailService.send_email.
  rewrite (bind_ok _ _ _ _ _ (send_email_ok _ _ _ H)).
  unfold open_append at 1. unfold mbind at 1, M_bind at 1.
  erewrite bind_raise; [reflexivity |].
  rewrite Hr. cbn [length seq LoggingEmailService.write_log].
  erewrite bind_ok;
    [| apply get_ok;
       change (heap (with_send_log _ ?w')) with (heap w');
       rewrite <- (Nat.add_0_r (length (heap w)));
       now apply lookup_after_send_new].
  unfold lift, mbind, M_bind.
  change (sender (sent_copy e _ r)) with (sender e). unfold LoggingEmailService.log_line.
  change (sender (sent_copy e _ r)) with (sender e). now rewrite Hs.
Qed.

(** ** The cases of the test-suite *)

Section Tests.
Variable unicode_lower : pystr -> pystr.

Example test_email_address_normalization_and_masking :
  EmailAddress_init unicode_lower (lit "USER@GMAIL.COM")
  = Ok {| _address := lit "user@gmail.com" |}
  /\ masked {| _address := lit "user@gmail.com" |} = Ok (lit "us***@gmail.com").
Proof. split; reflexivity. Qed.

Example test_email_address_valid_variants :
  EmailAddress_init unicode_lower (lit "  a@a.net   ")
  = Ok {| _address := lit "a@a.net" |}
  /\ EmailAddress_init unicode_lower (lit "User@MAIL.RU")
     = Ok {| _address := lit "user@mail.ru" |}.
Proof. split; reflexivity. Qed.

Example test_email_address_invalid_variants :
  Forall (fun raw => EmailAddress_init unicode_lower raw
                     = Raise (ValueError (lit "Некорректный email: " ++ raw)))
    [lit "abc"; lit "test@mail"; lit "name@domain.xx"; lit "noatsymbol.com";
     lit "name@domain.xyz"; lit ""; lit "   "].
Proof. repeat constructor. Qed.

End Tests.

Example test_add_short_body_boundary :
  snd (add_short_body 0%nat 5
         (world_of (Email_init (lit "s") (lit "12345") (Some a_com) (One b_com)
                      None None DRAFT)))
  = world_of (Email_init (lit "s") (lit "12345") (Some a_com) (One b_com)
                None (Some (lit "12345")) DRAFT)
  /\ snd (add_short_body 0%nat 5
            (world_of (Email_init (lit "s") (lit "123456") (Some a_com) (One b_com)
                         None None DRAFT)))
     = world_of (Email_init (lit "s") (lit "123456") (Some a_com) (One b_com)
                   None (Some (lit "12345...")) DRAFT)
  /\ snd (add_short_body 0%nat 5
            (world_of (Email_init (lit "s") (lit "") (Some a_com) (One b_com)
                         None (Some (lit "old")) DRAFT)))
     = world_of (Email_init (lit "s") (lit "") (Some a_com) (One b_com)
                   None None DRAFT).
Proof. repeat split. Qed.

Example test_clean_data_and_prepare :
  prepare 0%nat (world_of raw_email)
  = (Ok 0%nat,
     world_of (Email_init (lit "Hello world") (lit "Test body with spaces")
                 (Some a_com) (One b_com) None (Some (lit "Test body ..."))
                 READY)).
Proof. reflexivity. Qed.

Example test_prepare_invalid_if_no_recipients :
  prepare 0%nat
    (world_of (Email_init (lit "Hello") (lit "Body") (Some a_com) (Many [])
                 None None DRAFT))
  = (Ok 0%nat,
     world_of (Email_init (lit "Hello") (lit "Body") (Some a_com) (Many [])
                 None (Some (lit "Body")) INVALID)).
Proof. reflexivity. Qed.

Example test_send_zero_recipients :
  EmailService.send_email service
    (world_of (Email_init (lit "Test") (lit "Body") (Some a_com) (Many [])
                 None None READY))
  = (Ok [],
     world_of (Email_init (lit "Test") (lit "Body") (Some a_com) (Many [])
                 None None READY)).
Proof. reflexivity. Qed.

Example test_send_email_failed_if_not_ready :
  exists w',
    EmailService.send_email service
      (world_of (Email_init (lit "Hello") (lit "Msg") (Some a_com) (Many [b_com])
                   None None DRAFT))
    = (Ok [1%nat], w')
    /\ heap w' !! 1%nat
       = Some (Email_init (lit "Hello") (lit "Msg") (Some a_com) (One b_com)
                 (Some (lit "2026-11-03")) None FAILED).
Proof. eexists. split; reflexivity. Qed.

Example test_repr_has_expected_format :
  Email_str (prepared (Email_init (lit "Hello") (lit "World") (Some a_com)
                         (Many [b_com]) None None DRAFT))
  = Ok (lit "Status: ready" ++ [NEWLINE]
        ++ lit "Кому: b@b.com" ++ [NEWLINE]
        ++ lit "От: a***@a.com" ++ [NEWLINE]
        ++ lit "Тема: Hello, дата None" ++ [NEWLINE]
        ++ lit "World").
Proof. reflexivity. Qed.

(** An address of ASCII whitespace only is refused, whatever the tables. *)
Lemma EmailAddress_init_blank unicode_lower raw :
  forallb is_ascii raw = true -> forallb isspace raw = true ->
  EmailAddress_init unicode_lower raw
  = Raise (ValueError (lit "Некорректный email: " ++ raw)).
Proof.
  intros Hascii Hws.
  assert (Hn : normalize_address unicode_lower raw = []).
  { unfold normalize_address, lower. rewrite Hascii.
    assert (Hmap : List.map ascii_lower raw = raw).
    { clear Hascii. induction raw as [|c raw IH]; [reflexivity |].
      simpl in Hws. apply andb_true_iff in Hws as [Hc Hws].
      simpl. rewrite (IH Hws). f_equal. unfold ascii_lower.
      destruct ((65 <=? c) && (c <=? 90)) eqn:E; [| reflexivity].
      apply andb_true_iff in E as [E1 E2].
      apply N.leb_le in E1, E2. unfold isspace in Hc.
      repeat (apply orb_true_iff in Hc as [Hc|Hc]);
        repeat (apply andb_true_iff in Hc as [? ?]);
        repeat match goal with
               | H : (_ <=? _) = true |- _ => apply N.leb_le in H
               | H : (_ =? _) = true |- _ => apply N.eqb_eq in H
               end; lia. }
    rewrite Hmap. unfold strip.
    assert (Hl : lstrip raw = []).
    { clear Hascii Hmap. induction raw as [|c raw IH]; [reflexivity |].
      simpl in Hws. apply andb_true_iff in Hws as [Hc Hws].
      simpl. rewrite Hc. now apply IH. }
    now rewrite Hl. }
  unfold EmailAddress_init. now rewrite Hn.
Qed.

(** * The claims *)

(** C8: [clean_text] is, on every string: tabs and newlines replaced by a
    space, then every run of whitespace collapsed into one space, then
    both ends trimmed. The two sample texts give "Hello world" and
    "Test body with spaces". *)
Theorem clean_text_collapses_and_trims :
  (forall text : pystr,
     clean_text text = trim (collapse_runs false (replace_tab_newline text)))
  /\ clean_text (lit "  Hello   world  ") = lit "Hello world"
  /\ clean_text (lit " Test   body" ++ [NEWLINE] ++ lit "with   spaces ")
     = lit "Test body with spaces".
Proof.
  split; [exact clean_text_refines |]. split; vm_compute; reflexivity.
Qed.

(** C3: the constructor normalizes the raw string to [s.lower().strip()];
    either the normalized string has an [@] and one of the three suffixes,
    and the constructor returns the address whose accessor gives exactly
    the normalized string, or it has not, and the constructor raises the
    error that carries the raw string and returns no object. The empty and
    the blank string are refused. *)
Theorem EmailAddress_init_accepts_iff_valid
    (unicode_lower : pystr -> pystr) (raw : pystr) :
  let n := strip (lower unicode_lower raw) in
  normalize_address unicode_lower raw = n
  /\ ((valid_address n
       /\ exists a, EmailAddress_init unicode_lower raw = Ok a /\ address a = n)
      \/ (~ valid_address n
          /\ EmailAddress_init unicode_lower raw
             = Raise (ValueError (lit "Некорректный email: " ++ raw))))
  /\ ((exists a, EmailAddress_init unicode_lower raw = Ok a) <-> valid_address n)
  /\ EmailAddress_init unicode_lower (lit "")
     = Raise (ValueError (lit "Некорректный email: "))
  /\ EmailAddress_init unicode_lower (lit "    ")
     = Raise (ValueError (lit "Некорректный email:     ")).
Proof.
  intros n. split; [reflexivity |].
  pose proof (EmailAddress_init_cases unicode_lower raw) as Hc. fold n in Hc.
  split; [| split; [split |]].
  - destruct Hc as [[Hv Hi]|[Hv Hi]]; [left | right]; split; try assumption.
    now exists {| _address := n |}.
  - intros [a Ha]. destruct Hc as [[Hv _]|[_ Hi]]; [exact Hv | congruence].
  - intros Hv. destruct Hc as [[_ Hi]|[Hn _]]; [eauto | contradiction].
  - split; reflexivity.
Qed.

(** C4 (as the code has it): [is_valid_fields] is true exactly when the
    subject is not empty and the body is not empty, on the fields as they
    are at the call; nothing is trimmed. *)
Theorem is_valid_fields_iff_nonempty (e : Email) :
  is_valid_fields e = true <-> subject e <> [] /\ body e <> [].
Proof.
  unfold is_valid_fields. destruct (subject e), (body e); simpl; split;
    try discriminate; try (intros [? ?]; congruence); intros _; split; discriminate.
Qed.

(** C4, as stated, fails: a subject of one space is empty once trimmed,
    and the message is reported valid. *)
Lemma is_valid_fields_does_not_trim :
  ~ (is_valid_fields blank_subject_email = true
     <-> strip (subject blank_subject_email) <> []
         /\ strip (body blank_subject_email) <> []).
Proof.
  intros [H _]. destruct (H eq_refl) as [Hs _]. now apply Hs.
Qed.

(** C5: on the address "a@b@c.com", which the constructor accepts,
    [masked] raises a [ValueError]. *)
Theorem masked_raises_on_two_ats (unicode_lower : pystr -> pystr) :
  EmailAddress_init unicode_lower two_ats = Ok {| _address := two_ats |}
  /\ masked {| _address := two_ats |}
     = Raise (ValueError (lit "too many values to unpack (expected 2)")).
Proof. split; reflexivity. Qed.

(** C2: on a message of the heap, [prepare()] does not raise and returns
    the message it was called on, which then holds the cleaned subject and
    body; its status is READY exactly when the cleaned subject and body
    are not empty, the sender is not [None] and there is a recipient, and
    INVALID otherwise; its short body is that of the cleaned body for
    [n = 10]. *)
Theorem prepare_sets_status (w : World) (self : loc) (e : Email) :
  heap w !! self = Some e ->
  exists e',
    prepare self w = (Ok self, with_heap (<[self := e']> (heap w)) w)
    /\ subject e' = clean_text (subject e)
    /\ body e' = clean_text (body e)
    /\ (status e' = READY
        <-> clean_text (subject e) <> [] /\ clean_text (body e) <> []
            /\ sender e <> None /\ recipients e <> [])
    /\ (status e' <> READY -> status e' = INVALID)
    /\ (body e' = [] -> short_body e' = None)
    /\ (body e' <> [] -> (length (body e') <= 10)%nat ->
        short_body e' = Some (body e'))
    /\ ((10 < length (body e'))%nat ->
        short_body e' = Some (firstn 10 (body e') ++ lit "..."))
    /\ sender e' = sender e /\ recipients e' = recipients e /\ date e' = date e.
Proof.
  intros H. exists (prepared e). split; [now apply prepare_ok |].
  split; [reflexivity |]. split; [reflexivity |].
  split; [| split; [| split; [| split; [| split]]]].
  - simpl. split.
    + intros Hst.
      destruct (truthy (clean_text (subject e))) eqn:E1; [| discriminate].
      destruct (truthy (clean_text (body e))) eqn:E2; [| discriminate].
      destruct (bool_decide (is_Some (sender e))) eqn:E3; [| discriminate].
      destruct (truthy (recipients e)) eqn:E4; [| discriminate].
      apply truthy_true in E1, E2, E4. apply bool_decide_eq_true in E3.
      now apply not_eq_None_Some in E3.
    + intros (H1 & H2 & H3 & H4).
      apply truthy_true in H1, H2, H4. apply not_eq_None_Some in H3.
      apply (bool_decide_eq_true_2 _) in H3. now rewrite H1, H2, H3, H4.
  - simpl. destruct (_ && _); congruence.
  - simpl. now intros ->.
  - simpl. intros Hne Hlen. unfold short_form.
    destruct (clean_text (body e)) as [|c b] eqn:Hb; [congruence |].
    destruct (Nat.leb_spec (length (c :: b)) 10); [reflexivity | lia].
  - simpl. intros Hlen. unfold short_form.
    destruct (clean_text (body e)) as [|c b] eqn:Hb; [simpl in Hlen; lia |].
    destruct (Nat.leb_spec (length (c :: b)) 10); [lia | reflexivity].
  - repeat split.
Qed.

Lemma prepare_sets_status_witness :
  heap (world_of raw_email) !! 0%nat = Some raw_email
  /\ exists e',
       prepare 0%nat (world_of raw_email)
       = (Ok 0%nat, with_heap [e'] (world_of raw_email))
       /\ status e' = READY.
Proof.
  split; [reflexivity |].
  destruct (prepare_sets_status (world_of raw_email) 0%nat raw_email eq_refl)
    as [e' [Hrun [_ [_ [Hst _]]]]].
  exists e'. split; [exact Hrun |].
  apply Hst. repeat split; vm_compute; discriminate.
Defined.

(** C7: [prepare()] called twice in a row leaves the world, and so the
    message, as one call leaves it, and returns the same. *)
Theorem prepare_twice (w : World) (self : loc) :
  (prepare self ≫= fun _ => prepare self) w = prepare self w.
Proof.
  destruct (heap w !! self) as [e|] eqn:H.
  - rewrite (bind_ok _ _ _ _ _ (prepare_ok _ _ _ H)). cbv beta.
    rewrite (prepare_ok _ self (prepared e)
               (lookup_with_heap_insert w self e (prepared e) H)).
    rewrite with_heap_twice. simpl heap.
    now rewrite list_insert_insert_eq, prepared_idempotent, (prepare_ok _ _ _ H).
  - now rewrite (bind_raise _ _ _ _ _ (prepare_dangling _ _ H)), prepare_dangling.
Qed.

(** C1: [send_email] on a bound message without recipients returns the
    empty list and changes nothing; otherwise it returns one new object
    for each recipient, in the order of the recipients; the i-th one has
    the i-th recipient alone, the date the clock gave at its turn in the
    form YYYY-MM-DD, the status SENT when the bound message is READY and
    FAILED when it is not, and the other fields of the bound message. *)
Theorem send_email_one_copy_per_recipient
    (w : World) (self : EmailService.t) (e : Email) :
  heap w !! EmailService.email self = Some e ->
  exists sent w',
    EmailService.send_email self w = (Ok sent, w')
    /\ (recipients e = [] -> sent = [] /\ w' = w)
    /\ length sent = length (recipients e)
    /\ NoDup sent
    /\ forall i r, recipients e !! i = Some r ->
         exists l c,
           sent !! i = Some l
           /\ heap w !! l = None
           /\ heap w' !! l = Some c
           /\ recipients c = [r]
           /\ date c = Some (strftime_Ymd (clock w (reads w + i)%nat))
           /\ is_Ymd (strftime_Ymd (clock w (reads w + i)%nat))
           /\ (status e = READY -> status c = SENT)
           /\ (status e <> READY -> status c = FAILED)
           /\ subject c = subject e /\ body c = body e
           /\ sender c = sender e /\ short_body c = short_body e.
Proof.
  intros H. eexists _, _. split; [exact (send_email_ok _ _ _ H) |].
  split; [| split; [| split]].
  - intros ->. split; [reflexivity | apply after_send_nil].
  - apply length_seq.
  - apply NoDup_seq.
  - intros i r Hr.
    exists (length (heap w) + i)%nat, (sent_copy e (clock w (reads w + i)%nat) r).
    split; [apply lookup_seq_lt; now apply lookup_lt_Some in Hr |].
    split; [apply lookup_ge_None; lia |].
    split; [now apply lookup_after_send_new |].
    split; [reflexivity |]. split; [reflexivity |].
    split; [apply strftime_Ymd_shape |].
    split; [intros Hst; simpl; now rewrite Hst |].
    split; [| repeat split].
    intros Hst. simpl. destruct (Status_eqb (status e) READY) eqn:E; [| reflexivity].
    apply Status_eqb_eq in E. contradiction.
Qed.

Lemma send_email_one_copy_per_recipient_witness :
  heap (world_of ready_email) !! EmailService.email service = Some ready_email
  /\ exists sent w',
       EmailService.send_email service (world_of ready_email) = (Ok sent, w')
       /\ length sent = 2%nat.
Proof.
  split; [reflexivity |].
  destruct (send_email_one_copy_per_recipient
              (world_of ready_email) service ready_email eq_refl)
    as [sent [w' [Hrun [_ [Hlen _]]]]].
  exists sent, w'. split; [exact Hrun | exact Hlen].
Defined.

(** C6: after [send_email] the bound message is the object it was: its
    date (so [None] stays [None]), status, subject, body, sender,
    recipients and short body are those of before the call. *)
Theorem send_email_keeps_bound_message
    (w : World) (self : EmailService.t) (e : Email) :
  heap w !! EmailService.email self = Some e ->
  exists sent w' e',
    EmailService.send_email self w = (Ok sent, w')
    /\ heap w' !! EmailService.email self = Some e'
    /\ date e' = date e /\ status e' = status e
    /\ subject e' = subject e /\ body e' = body e /\ sender e' = sender e
    /\ recipients e' = recipients e /\ short_body e' = short_body e.
Proof.
  intros H. exists (seq (length (heap w)) (length (recipients e))),
    (after_send e (recipients e) w), e.
  split; [now apply send_email_ok |].
  split; [now apply lookup_after_send_old |]. repeat split.
Qed.

Lemma send_email_keeps_bound_message_witness :
  heap (world_of ready_email) !! EmailService.email service = Some ready_email
  /\ exists sent w' e',
       EmailService.send_email service (world_of ready_email) = (Ok sent, w')
       /\ heap w' !! EmailService.email service = Some e'
       /\ date e' = None /\ status e' = READY.
Proof.
  split; [reflexivity |].
  destruct (send_email_keeps_bound_message
              (world_of ready_email) service ready_email eq_refl)
    as [sent [w' [e' [Hrun [Hl [Hd [Hs _]]]]]]].
  exists sent, w', e'. repeat split; assumption.
Defined.

(** C9 (as the code has it): for a message that has a sender, and whose
    subject, sender address and recipient addresses hold no surrogate (so
    that every line can be encoded), the logging service returns what
    [send_email] returns and appends to the log, for each copy in the
    order of the copies, the line
    "[date] Status: status, От: sender, Кому: recipients, Тема: subject"
    and a newline; without recipients, whatever the message, it returns
    the empty list and the text of the log is as before. *)
Theorem logging_send_email_logs_each_copy
    (w : World) (self : EmailService.t) (e : Email) :
  heap w !! EmailService.email self = Some e ->
  (recipients e = [] ->
     LoggingEmailService.send_email self w
     = (Ok [], with_send_log (Some (default [] (send_log w))) w))
  /\ forall a,
       sender e = Some a ->
       encodable (subject e) -> encodable (address a) ->
       Forall (fun r => encodable (address r)) (recipients e) ->
       exists sent w1 copies,
         EmailService.send_email self w = (Ok sent, w1)
         /\ Forall2 (fun l c => heap w1 !! l = Some c) sent copies
         /\ LoggingEmailService.send_email self w
            = (Ok sent,
               with_send_log
                 (Some (default [] (send_log w)
                        ++ concat
                             (List.map
                                (fun c =>
                                   lit "[" ++ format_opt (date c)
                                   ++ lit "] Status: " ++ Status_value (status c)
                                   ++ lit ", От: " ++ address a
                                   ++ lit ", Кому: " ++ get_recipients_str c
                                   ++ lit ", Тема: " ++ subject c ++ [NEWLINE])
                                copies)))
                 w1).
Proof.
  intros H. split; [now apply logging_send_email_empty |].
  intros a Ha Hsub Haddr Hrs.
  exists (seq (length (heap w)) (length (recipients e))),
    (after_send e (recipients e) w),
    (imap (fun i r => sent_copy e (clock w (reads w + i)%nat) r) (recipients e)).
  split; [now apply send_email_ok |]. split.
  - apply Forall2_same_length_lookup_2.
    + now rewrite length_seq, length_imap.
    + intros i l c Hl Hc. apply lookup_seq in Hl as [-> Hi].
      rewrite list_lookup_imap in Hc.
      destruct (recipients e !! i) as [r|] eqn:Hr; [| discriminate].
      injection Hc as <-. now apply lookup_after_send_new.
  - rewrite (logging_send_email_ok _ _ _ _ H Ha Hsub Haddr Hrs), map_imap.
    reflexivity.
Qed.

Lemma logging_send_email_logs_each_copy_witness :
  heap (world_of ready_email) !! EmailService.email service = Some ready_email
  /\ sender ready_email = Some a_com
  /\ encodable (subject ready_email) /\ encodable (address a_com)
  /\ Forall (fun r => encodable (address r)) (recipients ready_email)
  /\ exists sent w1 w',
       EmailService.send_email service (world_of ready_email) = (Ok sent, w1)
       /\ LoggingEmailService.send_email service (world_of ready_email) = (Ok sent, w')
       /\ heap w' = heap w1.
Proof.
  assert (Hsub : encodable (subject ready_email))
    by (apply encodable_forallb; reflexivity).
  assert (Haddr : encodable (address a_com))
    by (apply encodable_forallb; reflexivity).
  assert (Hrs : Forall (fun r => encodable (address r)) (recipients ready_email))
    by (repeat constructor; apply encodable_forallb; reflexivity).
  split; [reflexivity |]. split; [reflexivity |].
  split; [exact Hsub |]. split; [exact Haddr |]. split; [exact Hrs |].
  destruct (proj2 (logging_send_email_logs_each_copy
                     (world_of ready_email) service ready_email eq_refl)
              a_com eq_refl Hsub Haddr Hrs)
    as [sent [w1 [copies [Hsend [Hcopies Hlog]]]]].
  exists sent, w1. eexists. split; [exact Hsend |]. split; [exact Hlog |].
  reflexivity.
Defined.

(** C9, as stated, fails: for the message without sender, and for the
    message whose subject holds a surrogate, [EmailService.send_email]
    returns and the logging service does not: it raises. *)
Lemma logging_send_email_can_raise :
  (EmailService.send_email service (world_of no_sender_email)
   = (Ok [1%nat], after_send no_sender_email [b_com] (world_of no_sender_email))
   /\ ~ (exists sent w',
           LoggingEmailService.send_email service (world_of no_sender_email)
           = (Ok sent, w')))
  /\ (EmailService.send_email service (world_of surrogate_email)
      = (Ok [1%nat], after_send surrogate_email [b_com] (world_of surrogate_email))
      /\ ~ (exists sent w',
              LoggingEmailService.send_email service (world_of surrogate_email)
              = (Ok sent, w'))).
Proof.
  split; (split; [reflexivity |]); intros [sent [w' H]];
    apply (f_equal fst) in H; vm_compute in H; discriminate H.
Qed.

(** The log of the sample message: two lines, in the order of its
    recipients. *)
Example logging_send_email_sample :
  exists w',
    LoggingEmailService.send_email service (world_of ready_email) = (Ok [1; 2]%nat, w')
    /\ send_log w'
       = Some (lit "[2026-11-03] Status: sent, От: a@a.com, Кому: b@b.com, Тема: Hello"
               ++ [NEWLINE]
               ++ lit "[2026-11-03] Status: sent, От: a@a.com, Кому: c@c.com, Тема: Hello"
               ++ [NEWLINE]).
Proof. eexists. split; reflexivity. Qed.

(** C10: a status is rendered by its lowercase value, never by its name:
    the display string opens with "Status: " and the value, a log line
    has the value after "] Status: ", and both are produced for a message
    whose sender has one [@]. *)
Theorem status_is_rendered_by_value :
  (Status_value DRAFT = lit "draft" /\ Status_value READY = lit "ready"
   /\ Status_value SENT = lit "sent" /\ Status_value FAILED = lit "failed"
   /\ Status_value INVALID = lit "invalid")
  /\ (forall e s, Email_str e = Ok s ->
        (exists rest,
           s = lit "Status: " ++ Status_value (status e) ++ [NEWLINE] ++ rest)
        /\ startswith s (lit "Status: " ++ Status_name (status e)) = false)
  /\ (forall e s, LoggingEmailService.log_line e = Ok s ->
        (exists rest,
           s = lit "[" ++ format_opt (date e) ++ lit "] Status: "
               ++ Status_value (status e) ++ lit ", " ++ rest)
        /\ startswith s (lit "[" ++ format_opt (date e) ++ lit "] Status: "
                         ++ Status_name (status e)) = false)
  /\ (forall e a local domain,
        sender e = Some a -> address a = local ++ AT :: domain ->
        ~ In AT local -> ~ In AT domain ->
        exists s, Email_str e = Ok s)
  /\ (forall e a, sender e = Some a -> exists s, LoggingEmailService.log_line e = Ok s).
Proof.
  split; [repeat split |]. split; [| split; [| split]].
  - intros e s Hs. unfold Email_str in Hs.
    destruct (sender e) as [a|]; [| discriminate].
    destruct (masked a) as [m|]; [| discriminate].
    apply Ok_inj in Hs. subst s. split.
    + eexists. reflexivity.
    + rewrite startswith_app.
      destruct (status e); reflexivity.
  - intros e s Hs. unfold LoggingEmailService.log_line in Hs.
    destruct (sender e) as [a|]; [| discriminate].
    apply Ok_inj in Hs. subst s. split.
    + eexists. reflexivity.
    + rewrite !startswith_app.
      destruct (status e); reflexivity.
  - intros e a local domain Ha Haddr Hl Hd. unfold Email_str. rewrite Ha.
    destruct a as [addr]. simpl in Haddr. subst addr.
    rewrite masked_one_at by assumption. eauto.
  - intros e a Ha. unfold LoggingEmailService.log_line. rewrite Ha. eauto.
Qed.

(** * Further properties of the code *)

(** ** [split("@")] and [masked] *)

Lemma split_on_not_nil sep s : split_on sep s <> [].
Proof.
  destruct s as [|c s]; simpl; [discriminate |].
  destruct (c =? sep); [discriminate |]. destruct (split_on sep s); discriminate.
Qed.

Lemma split_on_length sep s :
  length (split_on sep s) = S (count_occ N.eq_dec s sep).
Proof.
  induction s as [|c s IH]; [reflexivity |]. simpl.
  destruct (N.eqb_spec c sep) as [->|Hc].
  - destruct (N.eq_dec sep sep); [| congruence]. simpl. now rewrite IH.
  - destruct (N.eq_dec c sep); [congruence |].
    destruct (split_on sep s); [discriminate | exact IH].
Qed.

(** The parts joined by the separator are the text. *)
Lemma join_split_on sep s : join [sep] (split_on sep s) = s.
Proof.
  induction s as [|c s IH]; [reflexivity |]. simpl.
  destruct (c =? sep) eqn:E.
  - apply N.eqb_eq in E. subst c.
    rewrite join_cons by apply split_on_not_nil. now rewrite IH.
  - destruct (split_on sep s) as [|w ws] eqn:Hs; [now apply split_on_not_nil in Hs |].
    destruct ws as [|w' ws'].
    + simpl in *. now rewrite IH.
    + rewrite join_cons by discriminate. rewrite join_cons in IH by discriminate.
      rewrite <- IH. reflexivity.
Qed.

Lemma split_on_parts sep s : Forall (fun w => ~ In sep w) (split_on sep s).
Proof.
  induction s as [|c s IH]; simpl.
  - constructor; [intros [] | constructor].
  - destruct (N.eqb_spec c sep) as [->|Hc].
    + constructor; [intros [] | exact IH].
    + destruct (split_on sep s) as [|w ws]; [repeat constructor; intros [H|[]]; congruence |].
      inversion IH as [|? ? Hw Hws]; subst. constructor; [| exact Hws].
      intros [H|H]; [congruence | contradiction].
Qed.

(** [masked], by the number of [@] of the address. *)
Lemma masked_cases (a : EmailAddress) :
  match count_at (address a) with
  | 0%nat =>
      masked a
      = Raise (ValueError (lit "not enough values to unpack (expected 2, got 1)"))
  | 1%nat =>
      exists local domain,
        address a = local ++ AT :: domain
        /\ ~ In AT local /\ ~ In AT domain
        /\ masked a = Ok (firstn 2 local ++ lit "***@" ++ domain)
  | _ => masked a = Raise (ValueError (lit "too many values to unpack (expected 2)"))
  end.
Proof.
  destruct a as [s]. unfold count_at, address, masked. simpl _address.
  pose proof (split_on_length AT s) as Hlen.
  pose proof (join_split_on AT s) as Hjoin.
  pose proof (split_on_parts AT s) as Hparts.
  destruct (split_on AT s) as [|p [|q [|r l]]]; simpl in Hlen;
    [discriminate | | |]; injection Hlen as <-; try reflexivity.
  exists p, q. inversion Hparts as [|? ? Hp Hq']; subst.
  inversion Hq' as [|? ? Hq _]; subst.
  repeat split; assumption.
Qed.

(** X1: [masked] returns exactly when the address has one [@]: the result
    is then the first two characters of what is before the [@] (fewer
    when it is shorter), "***@" and what is after it; with no [@] and with
    two or more of them the unpacking raises [ValueError]. *)
Theorem masked_by_count_at (a : EmailAddress) :
  ((exists m, masked a = Ok m) <-> count_at (address a) = 1%nat)
  /\ (count_at (address a) = 1%nat ->
      exists local domain,
        address a = local ++ AT :: domain
        /\ ~ In AT local /\ ~ In AT domain
        /\ masked a = Ok (firstn 2 local ++ lit "***@" ++ domain))
  /\ (count_at (address a) = 0%nat ->
      masked a
      = Raise (ValueError (lit "not enough values to unpack (expected 2, got 1)")))
  /\ ((2 <= count_at (address a))%nat ->
      masked a = Raise (ValueError (lit "too many values to unpack (expected 2)"))).
Proof.
  pose proof (masked_cases a) as H.
  destruct (count_at (address a)) as [|[|k]].
  - repeat split; try (intros; lia || discriminate).
    + intros [m Hm]. congruence.
    + intros _. exact H.
  - destruct H as [local [domain [Ha [Hl [Hd Hm]]]]].
    repeat split; try (intros; lia || discriminate).
    + eauto.
    + intros _. exists local, domain. repeat split; assumption.
  - repeat split; try (intros; lia || discriminate).
    + intros [m Hm]. congruence.
    + intros _. exact H.
Qed.

Lemma count_occ_In_pos s : In AT s -> (1 <= count_at s)%nat.
Proof. intros H. now apply (count_occ_In N.eq_dec) in H. Qed.

(** ** Normalization *)

Lemma lstrip_idem s : lstrip (lstrip s) = lstrip s.
Proof.
  induction s as [|c s IH]; [reflexivity |]. simpl.
  destruct (isspace c) eqn:Hc; [exact IH |]. simpl. now rewrite Hc.
Qed.

Lemma lstrip_head s c t : lstrip s = c :: t -> isspace c = false.
Proof.
  induction s as [|d s IH]; [discriminate |]. simpl.
  destruct (isspace d) eqn:Hd; [exact IH |]. intros H. injection H as <- _. exact Hd.
Qed.

Lemma rstrip_idem s : rstrip (rstrip s) = rstrip s.
Proof.
  rewrite (rstrip_rev (rstrip s)), (rstrip_rev s), rev_involutive.
  now rewrite lstrip_idem.
Qed.

Lemma lstrip_rstrip_lstrip s : lstrip (rstrip (lstrip s)) = rstrip (lstrip s).
Proof.
  destruct (lstrip s) as [|c t] eqn:Hs; [reflexivity |].
  pose proof (lstrip_head _ _ _ Hs) as Hc.
  rewrite rstrip_word_cons by exact Hc. simpl. now rewrite Hc.
Qed.

Lemma strip_idem s : strip (strip s) = strip s.
Proof. unfold strip. now rewrite lstrip_rstrip_lstrip, rstrip_idem. Qed.

Lemma lstrip_Forall (P : N -> Prop) s : Forall P s -> Forall P (lstrip s).
Proof.
  induction 1 as [|c s Hc Hs IH]; [constructor |]. simpl.
  destruct (isspace c); [exact IH | now constructor].
Qed.

Lemma rstrip_Forall (P : N -> Prop) s : Forall P s -> Forall P (rstrip s).
Proof.
  induction 1 as [|c s Hc Hs IH]; [constructor |]. simpl.
  destruct (rstrip s) as [|d t].
  - destruct (isspace c); [constructor | now constructor].
  - now constructor.
Qed.

Lemma strip_Forall (P : N -> Prop) s : Forall P s -> Forall P (strip s).
Proof. intros H. now apply rstrip_Forall, lstrip_Forall. Qed.

Lemma ascii_lower_fixed c :
  is_ascii c = true ->
  is_ascii (ascii_lower c) = true /\ ascii_lower (ascii_lower c) = ascii_lower c.
Proof.
  unfold is_ascii, ascii_lower. intros Hc. apply N.ltb_lt in Hc.
  destruct ((65 <=? c) && (c <=? 90)) eqn:E.
  - apply andb_true_iff in E as [E1 E2]. apply N.leb_le in E1, E2.
    split; [apply N.ltb_lt; lia |].
    destruct (N.leb_spec (c + 32) 90); [lia |]. now rewrite andb_false_r.
  - rewrite E. split; [now apply N.ltb_lt | reflexivity].
Qed.

(** The normalized form of an ASCII text is ASCII and is its own lower
    case. *)
Lemma normalized_ascii unicode_lower raw :
  forallb is_ascii raw = true ->
  Forall (fun c => is_ascii c = true /\ ascii_lower c = c)
    (normalize_address unicode_lower raw).
Proof.
  intros Hascii. unfold normalize_address, lower. rewrite Hascii.
  apply strip_Forall. apply List.Forall_forall. intros x Hx.
  apply in_map_iff in Hx as [c [<- Hc]].
  apply ascii_lower_fixed.
  rewrite forallb_forall in Hascii. now apply Hascii.
Qed.

Lemma lower_fixed unicode_lower s :
  Forall (fun c => is_ascii c = true /\ ascii_lower c = c) s ->
  lower unicode_lower s = s.
Proof.
  intros H. unfold lower.
  assert (Ha : forallb is_ascii s = true).
  { apply forallb_forall. intros x Hx. rewrite List.Forall_forall in H.
    now apply H. }
  rewrite Ha. induction H as [|c s [_ Hc] Hs IH]; [reflexivity |].
  simpl. rewrite Hc. f_equal. apply IH.
  simpl in Ha. now apply andb_true_iff in Ha as [_ Ha].
Qed.

(** X2: an address made from an ASCII text is a fixed point of the
    normalization, and the constructor applied to it gives it back. *)
Theorem EmailAddress_init_of_address
    (unicode_lower : pystr -> pystr) (raw : pystr) (a : EmailAddress) :
  forallb is_ascii raw = true ->
  EmailAddress_init unicode_lower raw = Ok a ->
  normalize_address unicode_lower (address a) = address a
  /\ EmailAddress_init unicode_lower (address a) = Ok a.
Proof.
  intros Hascii Hinit. unfold EmailAddress_init in Hinit.
  destruct (_check_correct_email (normalize_address unicode_lower raw)) eqn:Hc;
    [| discriminate].
  simpl in Hinit. apply Ok_inj in Hinit. subst a. unfold address. simpl _address.
  assert (Hn : normalize_address unicode_lower (normalize_address unicode_lower raw)
               = normalize_address unicode_lower raw).
  { unfold normalize_address at 1.
    rewrite lower_fixed by now apply normalized_ascii.
    unfold normalize_address. apply strip_idem. }
  split; [exact Hn |]. unfold EmailAddress_init. now rewrite Hn, Hc.
Qed.

Lemma EmailAddress_init_of_address_witness :
  forallb is_ascii (lit "  USER@GMAIL.COM  ") = true
  /\ EmailAddress_init (fun s => s) (lit "  USER@GMAIL.COM  ")
     = Ok {| _address := lit "user@gmail.com" |}
  /\ EmailAddress_init (fun s => s) (lit "user@gmail.com")
     = Ok {| _address := lit "user@gmail.com" |}.
Proof.
  split; [reflexivity |]. split; [reflexivity |].
  exact (proj2 (EmailAddress_init_of_address (fun s => s)
                  (lit "  USER@GMAIL.COM  ") {| _address := lit "user@gmail.com" |}
                  eq_refl eq_refl)).
Defined.

(** X3: whatever the raw text, an address the constructor returns has no
    whitespace at its ends, has an [@] and at least four characters, and
    [masked] on it returns or raises for too many parts, never for too
    few. *)
Theorem EmailAddress_init_invariant
    (unicode_lower : pystr -> pystr) (raw : pystr) (a : EmailAddress) :
  EmailAddress_init unicode_lower raw = Ok a ->
  strip (address a) = address a
  /\ In AT (address a)
  /\ (4 <= length (address a))%nat
  /\ ((exists m, masked a = Ok m)
      \/ masked a = Raise (ValueError (lit "too many values to unpack (expected 2)"))).
Proof.
  intros Hinit. unfold EmailAddress_init in Hinit.
  destruct (_check_correct_email (normalize_address unicode_lower raw)) eqn:Hc;
    [| discriminate].
  simpl in Hinit. apply Ok_inj in Hinit. subst a. unfold address. simpl _address.
  apply _check_correct_email_valid in Hc. destruct Hc as [Hat Hsuf].
  split; [apply strip_idem |]. split; [exact Hat |]. split.
  - set (n := normalize_address unicode_lower raw) in *.
    assert (Hp : forall p suf, n = p ++ suf -> ~ In AT suf -> (3 <= length suf)%nat ->
                   (4 <= length n)%nat).
    { intros p suf Hn Hs Hl. rewrite Hn in Hat. apply in_app_or in Hat as [Hat|Hat];
        [| contradiction].
      rewrite Hn, length_app. destruct p; [contradiction | simpl; lia]. }
    destruct Hsuf as [[p Hn]|[[p Hn]|[p Hn]]]; apply (Hp _ _ Hn);
      try (simpl; lia); intros Hin; vm_compute in Hin;
      repeat (destruct Hin as [Hin|Hin]; [discriminate |]); exact Hin.
  - unfold masked. simpl _address.
    pose proof (split_on_length AT (normalize_address unicode_lower raw)) as Hlen.
    pose proof (count_occ_In_pos _ Hat) as Hpos. unfold count_at in Hpos.
    destruct (split_on AT (normalize_address unicode_lower raw)) as [|p [|q [|r l]]];
      simpl in Hlen; try lia; [left; eauto | now right].
Qed.

Lemma EmailAddress_init_invariant_witness :
  EmailAddress_init (fun s => s) (lit " @.RU ") = Ok {| _address := lit "@.ru" |}
  /\ masked {| _address := lit "@.ru" |} = Ok (lit "***@.ru")
  /\ (4 <= length (lit "@.ru"))%nat.
Proof.
  split; [reflexivity |]. split; [reflexivity |].
  exact (proj1 (proj2 (proj2 (EmailAddress_init_invariant (fun s => s)
                                (lit " @.RU ") {| _address := lit "@.ru" |} eq_refl)))).
Defined.

(** ** The cleaned text *)

Lemma well_spaced_word w : forall t,
  forallb (fun c => negb (isspace c)) w = true ->
  well_spaced false (w ++ t) = well_spaced false t.
Proof.
  induction w as [|c w IH]; intros t Hw; [reflexivity |].
  simpl in Hw. apply andb_true_iff in Hw as [Hc Hw]. apply negb_true_iff in Hc.
  simpl. rewrite Hc. now apply IH.
Qed.

Lemma well_spaced_word_like b w t :
  word_like w -> well_spaced b (w ++ t) = well_spaced false t.
Proof.
  intros [Hne Hw]. destruct w as [|c w]; [congruence |].
  simpl in Hw. apply andb_true_iff in Hw as [Hc Hw]. apply negb_true_iff in Hc.
  simpl. rewrite Hc. now apply well_spaced_word.
Qed.

Lemma well_spaced_join l :
  Forall word_like l -> l <> [] -> well_spaced true (join (lit " ") l) = true.
Proof.
  induction 1 as [|w l Hw Hl IH]; intros Hne; [congruence |].
  destruct l as [|w' l'].
  - simpl. rewrite <- (app_nil_r w). now rewrite well_spaced_word_like.
  - rewrite join_cons by discriminate. rewrite well_spaced_word_like by exact Hw.
    change (well_spaced false (lit " " ++ join (lit " ") (w' :: l')))
      with (well_spaced true (join (lit " ") (w' :: l'))).
    now apply IH.
Qed.

Lemma well_spaced_spaces s : forall b,
  well_spaced b s = true -> Forall (fun c => isspace c = true -> c = SPACE) s.
Proof.
  induction s as [|c s IH]; intros b H; [constructor |]. simpl in H.
  destruct (isspace c) eqn:Hc.
  - apply andb_true_iff in H as [H Hs]. apply andb_true_iff in H as [Heq _].
    apply N.eqb_eq in Heq. constructor; [now intros _ | now apply (IH true)].
  - constructor; [intros Habs; congruence | now apply (IH false)].
Qed.

Lemma well_spaced_no_pair p : forall b s c d q,
  well_spaced b s = true -> s = p ++ c :: d :: q ->
  isspace c = true -> isspace d = false.
Proof.
  induction p as [|x p IH]; intros b s c d q H -> Hc.
  - simpl in H. rewrite Hc in H.
    apply andb_true_iff in H as [_ H]. destruct (isspace d); [| reflexivity].
    apply andb_true_iff in H as [H _]. apply andb_true_iff in H as [_ H]. discriminate.
  - simpl in H. destruct (isspace x).
    + apply andb_true_iff in H as [_ H]. now apply (IH true _ c d q H eq_refl).
    + now apply (IH false _ c d q H eq_refl).
Qed.

Lemma well_spaced_last p : forall b c,
  well_spaced b (p ++ [c]) = true -> isspace c = false.
Proof.
  induction p as [|x p IH]; intros b c H; simpl in H.
  - destruct (isspace c); [| reflexivity].
    apply andb_true_iff in H as [_ H]. discriminate.
  - destruct (isspace x).
    + apply andb_true_iff in H as [_ H]. now apply (IH true).
    + now apply (IH false).
Qed.

Lemma clean_text_well_spaced text :
  clean_text text = [] \/ well_spaced true (clean_text text) = true.
Proof.
  rewrite clean_text_split. destruct (split text) as [|w l] eqn:Hs; [now left |].
  right. apply well_spaced_join; [| discriminate].
  rewrite <- Hs. apply split_words.
Qed.

(** X4: in a cleaned text every whitespace character is a space, no two
    whitespace characters are next to each other, and neither the first
    nor the last character is whitespace. *)
Theorem clean_text_shape (text : pystr) :
  (forall c, In c (clean_text text) -> isspace c = true -> c = SPACE)
  /\ (forall p c d q, clean_text text = p ++ c :: d :: q ->
        isspace c = true -> isspace d = false)
  /\ (forall c t, clean_text text = c :: t -> isspace c = false)
  /\ (forall p c, clean_text text = p ++ [c] -> isspace c = false).
Proof.
  destruct (clean_text_well_spaced text) as [Hnil|Hws].
  - rewrite Hnil. repeat split.
    + intros c [].
    + intros p c d q H. now destruct p.
    + discriminate.
    + intros p c H. now destruct p.
  - repeat split.
    + intros c Hin. pose proof (well_spaced_spaces _ _ Hws) as HF.
      rewrite List.Forall_forall in HF. now apply HF.
    + intros p c d q Heq. now apply (well_spaced_no_pair p true _ c d q Hws).
    + intros c t Heq. rewrite Heq in Hws. simpl in Hws.
      destruct (isspace c); [| reflexivity].
      apply andb_true_iff in Hws as [H _]. apply andb_true_iff in H as [_ H].
      discriminate.
    + intros p c Heq. rewrite Heq in Hws. now apply (well_spaced_last p true).
Qed.

Lemma split_from_not_nil s : forall word, word <> [] -> split_from word s <> [].
Proof.
  induction s as [|c s IH]; intros word Hne; simpl.
  - destruct word; [congruence | discriminate].
  - destruct (isspace c).
    + destruct word; [congruence | discriminate].
    + apply IH. destruct word; discriminate.
Qed.

Lemma split_nil_iff s : split s = [] <-> forallb isspace s = true.
Proof.
  unfold split. induction s as [|c s IH]; simpl; [tauto |].
  destruct (isspace c); simpl; [exact IH |].
  split; [| discriminate]. intros H. now apply split_from_not_nil in H.
Qed.

Lemma join_split_from_length s : forall word,
  (length (join (lit " ") (split_from word s)) <= length word + length s)%nat.
Proof.
  induction s as [|c s IH]; intros word; simpl.
  - destruct word; simpl; lia.
  - destruct (isspace c).
    + destruct word as [|a word'].
      * specialize (IH []). simpl in IH. lia.
      * specialize (IH []). simpl in IH.
        destruct (split_from [] s) as [|w' l'] eqn:Hs.
        -- simpl. lia.
        -- rewrite join_cons by discriminate.
           rewrite !length_app. change (length (lit " ")) with 1%nat. simpl in *. lia.
    + specialize (IH (word ++ [c])). rewrite length_app in IH. simpl in IH. lia.
Qed.

(** X5: cleaning never lengthens a text, and gives the empty text exactly
    for a text of whitespace only (the empty one among them). *)
Theorem clean_text_length_and_empty (text : pystr) :
  (length (clean_text text) <= length text)%nat
  /\ (clean_text text = [] <-> forallb isspace text = true).
Proof.
  rewrite clean_text_split. split.
  - apply (join_split_from_length text []).
  - rewrite <- split_nil_iff. split.
    + apply join_words_nil, split_words.
    + now intros ->.
Qed.

(** X6: the words of the cleaned text are the words of the text, in the
    same order. *)
Theorem clean_text_keeps_words (text : pystr) :
  split (clean_text text) = split text.
Proof. rewrite clean_text_split. apply split_join, split_words. Qed.

(** ** The methods of [Email] *)

Lemma clean_text_nil_iff text :
  clean_text text = [] <-> forallb isspace text = true.
Proof.
  rewrite clean_text_split, <- split_nil_iff. split.
  - apply join_words_nil, split_words.
  - now intros ->.
Qed.

Lemma not_all_space s :
  forallb isspace s <> true <-> exists c, In c s /\ isspace c = false.
Proof.
  induction s as [|c s IH]; simpl.
  - split; [congruence | intros [c [[] _]]].
  - destruct (isspace c) eqn:Hc; simpl.
    + rewrite IH. split.
      * intros [d [Hd Hs]]. exists d. split; [now right | exact Hs].
      * intros [d [[<-|Hd] Hs]]; [congruence | eauto].
    + split; [intros _; exists c; split; [now left | exact Hc] | discriminate].
Qed.

(** X7: [clean_data] returns the message it was called on, replaces
    subject and body by their cleaned texts and nothing else (the short
    body stays as it was cached), and a second call changes nothing. *)
Theorem clean_data_frame_and_idempotent (w : World) (self : loc) (e : Email) :
  heap w !! self = Some e ->
  exists e',
    clean_data self w = (Ok self, with_heap (<[self := e']> (heap w)) w)
    /\ subject e' = clean_text (subject e) /\ body e' = clean_text (body e)
    /\ sender e' = sender e /\ recipients e' = recipients e /\ date e' = date e
    /\ short_body e' = short_body e /\ status e' = status e
    /\ (clean_data self ≫= fun _ => clean_data self) w = clean_data self w.
Proof.
  intros H. eexists. split; [exact (clean_data_ok _ _ _ H) |].
  repeat split.
  rewrite (bind_ok _ _ _ _ _ (clean_data_ok _ _ _ H)). cbv beta.
  rewrite (clean_data_ok _ self _ (lookup_with_heap_insert w self e _ H)).
  rewrite (clean_data_ok _ _ _ H), with_heap_twice. simpl heap.
  rewrite list_insert_insert_eq. unfold with_body, with_subject. simpl.
  now rewrite !clean_text_idempotent.
Qed.

Lemma clean_data_frame_and_idempotent_witness :
  heap (world_of raw_email) !! 0%nat = Some raw_email
  /\ exists e',
       clean_data 0%nat (world_of raw_email)
       = (Ok 0%nat, with_heap [e'] (world_of raw_email))
       /\ subject e' = lit "Hello world" /\ short_body e' = None.
Proof.
  split; [reflexivity |].
  destruct (clean_data_frame_and_idempotent (world_of raw_email) 0%nat raw_email
              eq_refl) as [e' [Hrun [Hs [_ [_ [_ [_ [Hsb _]]]]]]]].
  exists e'. split; [exact Hrun |]. split; [exact Hs | exact Hsb].
Defined.

Lemma add_short_body_run w self e n :
  heap w !! self = Some e ->
  add_short_body self n w
  = (Ok self,
     with_heap
       (<[self := with_short_body
                    (if negb (truthy (body e)) then None
                     else if (Z.of_nat (length (body e)) <=? n)%Z then Some (body e)
                          else Some (slice_to n (body e) ++ lit "...")) e]> (heap w)) w).
Proof.
  intros H. unfold add_short_body.
  rewrite (bind_ok _ _ _ _ _ (get_ok _ _ _ H)).
  destruct (negb (truthy (body e)));
    [| destruct (Z.of_nat (length (body e)) <=? n)%Z];
    now rewrite (bind_ok _ _ _ _ _ (setattr_ok _ _ _ _ H)).
Qed.

(** X8: for a bound [n >= 0], [add_short_body(n)] changes the short body
    only: to [None] exactly for an empty body, else to a text of at most
    [n + 3] characters that agrees with the body on the first [n]: the
    body itself when it has at most [n] characters, its first [n]
    characters and "..." when it has more. *)
Theorem add_short_body_bound (w : World) (self : loc) (e : Email) (n : Z) :
  heap w !! self = Some e -> (0 <= n)%Z ->
  exists sb,
    add_short_body self n w
    = (Ok self, with_heap (<[self := with_short_body sb e]> (heap w)) w)
    /\ (sb = None <-> body e = [])
    /\ forall s, sb = Some s ->
         (length s <= Z.to_nat n + 3)%nat
         /\ firstn (Z.to_nat n) s = firstn (Z.to_nat n) (body e)
         /\ ((length (body e) <= Z.to_nat n)%nat -> s = body e)
         /\ ((Z.to_nat n < length (body e))%nat ->
             s = firstn (Z.to_nat n) (body e) ++ lit "...").
Proof.
  intros H Hn. eexists. split; [exact (add_short_body_run _ _ _ _ H) |].
  destruct (body e) as [|c b] eqn:Hb.
  - simpl. split; [tauto | discriminate].
  - cbv [truthy negb]. unfold slice_to.
    destruct (Z.leb_spec 0 n) as [_|]; [| lia].
    destruct (Z.leb_spec (Z.of_nat (length (c :: b))) n) as [Hle|Hgt].
    + split; [split; discriminate |]. intros s Hs. apply (inj Some) in Hs. subst s.
      repeat split; lia.
    + split; [split; discriminate |]. intros s Hs. apply (inj Some) in Hs. subst s.
      assert (Hlen : length (firstn (Z.to_nat n) (c :: b)) = Z.to_nat n).
      { apply firstn_length_le. lia. }
      split; [| split; [| split; [lia | reflexivity]]].
      * rewrite length_app, Hlen. change (length (lit "...")) with 3%nat. lia.
      * rewrite firstn_app, Hlen, Nat.sub_diag, firstn_O, app_nil_r.
        now rewrite firstn_firstn, Nat.min_id.
Qed.

Lemma add_short_body_bound_witness :
  heap (world_of ready_email) !! 0%nat = Some ready_email /\ (0 <= 2)%Z
  /\ exists sb,
       add_short_body 0%nat 2 (world_of ready_email)
       = (Ok 0%nat, with_heap [with_short_body sb ready_email] (world_of ready_email))
       /\ sb <> None.
Proof.
  split; [reflexivity |]. split; [lia |].
  destruct (add_short_body_bound (world_of ready_email) 0%nat ready_email 2
              eq_refl ltac:(lia)) as [sb [Hrun [Hnone _]]].
  exists sb. split; [exact Hrun |].
  intros Hsb. apply Hnone in Hsb. discriminate.
Defined.

(** X9: for a negative bound and a body that is not empty,
    [add_short_body(n)] stores the body without its last [-n] characters
    (nothing of it when it has no more than that), followed by "...":
    the dots are there whatever the length of the body. *)
Theorem add_short_body_negative (w : World) (self : loc) (e : Email) (n : Z) :
  heap w !! self = Some e -> (n < 0)%Z -> body e <> [] ->
  add_short_body self n w
  = (Ok self,
     with_heap
       (<[self := with_short_body
                    (Some (firstn (length (body e) - Z.to_nat (- n)) (body e)
                           ++ lit "...")) e]> (heap w)) w).
Proof.
  intros H Hn Hb. rewrite (add_short_body_run _ _ _ _ H).
  destruct (body e) as [|c b] eqn:Hbody; [congruence |].
  cbv [truthy negb]. unfold slice_to.
  destruct (Z.leb_spec (Z.of_nat (length (c :: b))) n); [lia |].
  destruct (Z.leb_spec 0 n); [lia | reflexivity].
Qed.

Lemma add_short_body_negative_witness :
  heap (world_of ready_email) !! 0%nat = Some ready_email /\ (-1 < 0)%Z
  /\ body ready_email <> []
  /\ add_short_body 0%nat (-1) (world_of ready_email)
     = (Ok 0%nat,
        with_heap [with_short_body (Some (lit "Ms...")) ready_email]
          (world_of ready_email)).
Proof.
  split; [reflexivity |]. split; [lia |]. split; [discriminate |].
  exact (add_short_body_negative (world_of ready_email) 0%nat ready_email (-1)
           eq_refl ltac:(lia) ltac:(discriminate)).
Defined.

(** X10: once [clean_data] has run, [is_valid_fields] is true exactly
    when the subject and the body each had a character that is not
    whitespace. *)
Theorem is_valid_fields_after_clean_data (w : World) (self : loc) (e : Email) :
  heap w !! self = Some e ->
  exists e',
    clean_data self w = (Ok self, with_heap (<[self := e']> (heap w)) w)
    /\ (is_valid_fields e' = true
        <-> (exists c, In c (subject e) /\ isspace c = false)
            /\ (exists c, In c (body e) /\ isspace c = false)).
Proof.
  intros H. eexists. split; [exact (clean_data_ok _ _ _ H) |].
  unfold is_valid_fields. simpl.
  rewrite <- !not_all_space, <- !clean_text_nil_iff.
  destruct (clean_text (subject e)), (clean_text (body e)); simpl;
    split; try discriminate; try (intros [? ?]; congruence);
    intros _; split; discriminate.
Qed.

Lemma is_valid_fields_after_clean_data_witness :
  heap (world_of blank_subject_email) !! 0%nat = Some blank_subject_email
  /\ exists e',
       clean_data 0%nat (world_of blank_subject_email)
       = (Ok 0%nat, with_heap [e'] (world_of blank_subject_email))
       /\ is_valid_fields e' <> true.
Proof.
  split; [reflexivity |].
  destruct (is_valid_fields_after_clean_data (world_of blank_subject_email) 0%nat
              blank_subject_email eq_refl) as [e' [Hrun Hiff]].
  exists e'. split; [exact Hrun |].
  intros Hv. apply Hiff in Hv. destruct Hv as [[c [Hin Hc]] _].
  destruct Hin as [<-|[]]. discriminate.
Defined.

(** X11: [__str__] (and [__repr__], which calls it) returns exactly for a
    message whose sender has one [@], and then gives the five lines with
    the masked sender; without sender it raises [AttributeError], and
    with a sender that [masked] cannot split it raises the [ValueError]
    of [masked]. *)
Theorem Email_str_outcome (e : Email) :
  Email_repr e = Email_str e
  /\ match sender e with
     | None =>
         Email_str e
         = Raise (AttributeError (lit "'NoneType' object has no attribute 'masked'"))
     | Some a =>
         match count_at (address a) with
         | 0%nat =>
             Email_str e
             = Raise (ValueError
                        (lit "not enough values to unpack (expected 2, got 1)"))
         | 1%nat =>
             exists local domain,
               address a = local ++ AT :: domain
               /\ Email_str e
                  = Ok (lit "Status: " ++ Status_value (status e) ++ [NEWLINE]
                        ++ lit "Кому: " ++ get_recipients_str e ++ [NEWLINE]
                        ++ lit "От: " ++ (firstn 2 local ++ lit "***@" ++ domain)
                        ++ [NEWLINE]
                        ++ lit "Тема: " ++ subject e ++ lit ", дата "
                        ++ format_opt (date e) ++ [NEWLINE]
                        ++ short_body_or_body e)
         | _ =>
             Email_str e
             = Raise (ValueError (lit "too many values to unpack (expected 2)"))
         end
     end.
Proof.
  split; [reflexivity |]. unfold Email_str.
  destruct (sender e) as [a|]; [| reflexivity].
  pose proof (masked_cases a) as H.
  destruct (count_at (address a)) as [|[|k]].
  - now rewrite H.
  - destruct H as [local [domain [Ha [_ [_ Hm]]]]].
    exists local, domain. split; [exact Ha |]. now rewrite Hm.
  - now rewrite H.
Qed.

(** ** [send_email] and what follows it *)

Lemma concat_recipients_imap (f : nat -> EmailAddress -> Email) rs :
  (forall i r, recipients (f i r) = [r]) ->
  concat (List.map recipients (imap f rs)) = rs.
Proof.
  revert f. induction rs as [|r rs IH]; intros f Hf; [reflexivity |].
  simpl. rewrite Hf. simpl. f_equal. apply IH. intros i x. apply Hf.
Qed.

(** X12: [send_email] leaves every object that existed as it was, adds
    one object for each recipient, reads the clock once for each, does
    not touch the log, and the recipients of the new objects, taken in
    order, are the recipients of the bound message. *)
Theorem send_email_frame (w : World) (self : EmailService.t) (e : Email) :
  heap w !! EmailService.email self = Some e ->
  exists sent w',
    EmailService.send_email self w = (Ok sent, w')
    /\ (forall l x, heap w !! l = Some x -> heap w' !! l = Some x)
    /\ length (heap w') = (length (heap w) + length (recipients e))%nat
    /\ concat (List.map recipients (skipn (length (heap w)) (heap w')))
       = recipients e
    /\ clock w' = clock w
    /\ reads w' = (reads w + length (recipients e))%nat
    /\ send_log w' = send_log w.
Proof.
  intros H. eexists _, _. split; [exact (send_email_ok _ _ _ H) |].
  split; [intros l x Hl; now apply lookup_after_send_old |].
  split; [simpl; now rewrite length_app, length_imap |].
  split; [| repeat split].
  simpl. rewrite skipn_app, Nat.sub_diag, skipn_all. simpl.
  now apply concat_recipients_imap.
Qed.

Lemma send_email_frame_witness :
  heap (world_of ready_email) !! EmailService.email service = Some ready_email
  /\ exists sent w',
       EmailService.send_email service (world_of ready_email) = (Ok sent, w')
       /\ length (heap w') = 3%nat
       /\ send_log w' = None.
Proof.
  split; [reflexivity |].
  destruct (send_email_frame (world_of ready_email) service ready_email eq_refl)
    as [sent [w' [Hrun [_ [Hlen [_ [_ [_ Hlog]]]]]]]].
  exists sent, w'. split; [exact Hrun |]. split; [exact Hlen | exact Hlog].
Defined.

Lemma sent_copy_not_ready e d r : Status_eqb (status (sent_copy e d r)) READY = false.
Proof. simpl. now destruct (Status_eqb (status e) READY). Qed.

(** X13: a copy that [send_email] returned cannot be sent again: bound to
    a service of its own, it gives one new copy for its recipient, with
    the status FAILED, whatever the status of the first message. *)
Theorem send_email_of_copy_fails
    (w : World) (self : EmailService.t) (e : Email) (i : nat) (r : EmailAddress) :
  heap w !! EmailService.email self = Some e ->
  recipients e !! i = Some r ->
  exists sent w1 l again w2 c,
    EmailService.send_email self w = (Ok sent, w1)
    /\ sent !! i = Some l
    /\ EmailService.send_email {| EmailService.email := l |} w1 = (Ok [again], w2)
    /\ heap w1 !! again = None
    /\ heap w2 !! again = Some c
    /\ status c = FAILED /\ recipients c = [r].
Proof.
  intros H Hr.
  set (w1 := after_send e (recipients e) w).
  set (c1 := sent_copy e (clock w (reads w + i)%nat) r).
  assert (Hc1 : heap w1 !! (length (heap w) + i)%nat = Some c1)
    by now apply lookup_after_send_new.
  exists (seq (length (heap w)) (length (recipients e))), w1,
    (length (heap w) + i)%nat, (length (heap w1)),
    (after_send c1 (recipients c1) w1),
    (sent_copy c1 (clock w1 (reads w1 + 0)%nat) r).
  split; [exact (send_email_ok _ _ _ H) |].
  split; [apply lookup_seq_lt; now apply lookup_lt_Some in Hr |].
  split; [exact (send_email_ok {| EmailService.email := _ |} c1 w1 Hc1) |].
  split; [apply lookup_ge_None; lia |].
  split.
  - rewrite <- (Nat.add_0_r (length (heap w1))).
    now apply lookup_after_send_new.
  - split; [| reflexivity].
    change (status (sent_copy c1 (clock w1 (reads w1 + 0)%nat) r))
      with (if Status_eqb (status c1) READY then SENT else FAILED).
    unfold c1. now rewrite sent_copy_not_ready.
Qed.

Lemma send_email_of_copy_fails_witness :
  heap (world_of ready_email) !! EmailService.email service = Some ready_email
  /\ recipients ready_email !! 1%nat = Some c_com
  /\ exists sent w1 l again w2 c,
       EmailService.send_email service (world_of ready_email) = (Ok sent, w1)
       /\ sent !! 1%nat = Some l
       /\ EmailService.send_email {| EmailService.email := l |} w1 = (Ok [again], w2)
       /\ heap w2 !! again = Some c /\ status c = FAILED.
Proof.
  split; [reflexivity |]. split; [reflexivity |].
  destruct (send_email_of_copy_fails (world_of ready_email) service ready_email
              1%nat c_com eq_refl eq_refl)
    as [sent [w1 [l [again [w2 [c [Hrun [Hl [Hrun2 [_ [Hc [Hst _]]]]]]]]]]]].
  exists sent, w1, l, again, w2, c. repeat split; assumption.
Defined.

(** X14: [prepare()] followed by [send_email()] gives one copy for each
    recipient with the cleaned subject and body; the copies are SENT
    exactly when the subject and the body each had a character that is
    not whitespace and there is a sender, and FAILED otherwise. *)
Theorem prepare_then_send_email (w : World) (self : loc) (e : Email) :
  heap w !! self = Some e ->
  exists sent w1 w2,
    prepare self w = (Ok self, w1)
    /\ EmailService.send_email {| EmailService.email := self |} w1 = (Ok sent, w2)
    /\ length sent = length (recipients e)
    /\ forall i r, recipients e !! i = Some r ->
         exists l c,
           sent !! i = Some l /\ heap w2 !! l = Some c
           /\ subject c = clean_text (subject e) /\ body c = clean_text (body e)
           /\ recipients c = [r]
           /\ (status c = SENT
               <-> (exists x, In x (subject e) /\ isspace x = false)
                   /\ (exists x, In x (body e) /\ isspace x = false)
                   /\ sender e <> None)
           /\ (status c <> SENT -> status c = FAILED).
Proof.
  intros H.
  set (w1 := with_heap (<[self := prepared e]> (heap w)) w).
  assert (H1 : heap w1 !! self = Some (prepared e))
    by exact (lookup_with_heap_insert w self e (prepared e) H).
  exists (seq (length (heap w1)) (length (recipients e))), w1,
    (after_send (prepared e) (recipients e) w1).
  split; [now apply prepare_ok |].
  split; [exact (send_email_ok {| EmailService.email := self |} _ w1 H1) |].
  split; [apply length_seq |].
  intros i r Hr.
  exists (length (heap w1) + i)%nat,
    (sent_copy (prepared e) (clock w1 (reads w1 + i)%nat) r).
  split; [apply lookup_seq_lt; now apply lookup_lt_Some in Hr |].
  split; [now apply (lookup_after_send_new (prepared e) (recipients e)) |].
  split; [reflexivity |]. split; [reflexivity |]. split; [reflexivity |].
  assert (Hne : recipients e <> []) by (intros Hnil; now rewrite Hnil in Hr).
  apply truthy_true in Hne.
  assert (Htext : forall t : pystr,
            (exists x, In x t /\ isspace x = false) <-> truthy (clean_text t) = true).
  { intros t. rewrite <- not_all_space, <- clean_text_nil_iff. symmetry.
    apply truthy_true. }
  assert (Hsender : sender e <> None <-> bool_decide (is_Some (sender e)) = true).
  { rewrite not_eq_None_Some. symmetry. apply bool_decide_eq_true. }
  rewrite !Htext, Hsender. simpl. rewrite Hne, andb_true_r.
  destruct (truthy (clean_text (subject e))), (truthy (clean_text (body e))),
    (bool_decide (is_Some (sender e))); simpl;
    (split; [split; [intros Hst; try discriminate; repeat split
                    | intros (H2 & H3 & H4); try discriminate; reflexivity]
            | intros Hst; try reflexivity; congruence]).
Qed.

Lemma prepare_then_send_email_witness :
  heap (world_of raw_email) !! 0%nat = Some raw_email
  /\ exists sent w1 w2,
       prepare 0%nat (world_of raw_email) = (Ok 0%nat, w1)
       /\ EmailService.send_email service w1 = (Ok sent, w2)
       /\ length sent = 1%nat.
Proof.
  split; [reflexivity |].
  destruct (prepare_then_send_email (world_of raw_email) 0%nat raw_email eq_refl)
    as [sent [w1 [w2 [Hp [Hs [Hlen _]]]]]].
  exists sent, w1, w2. repeat split; assumption.
Defined.

(** X15: a copy is an object of its own: [prepare()] run on a copy that
    [send_email] returned leaves the bound message and every other
    object as they are, and touches neither the clock nor the log. *)
Theorem prepare_of_copy_is_local
    (w : World) (self : EmailService.t) (e : Email) (i : nat) (r : EmailAddress) :
  heap w !! EmailService.email self = Some e ->
  recipients e !! i = Some r ->
  exists sent w1 l w2,
    EmailService.send_email self w = (Ok sent, w1)
    /\ sent !! i = Some l
    /\ prepare l w1 = (Ok l, w2)
    /\ heap w2 !! EmailService.email self = Some e
    /\ (forall l', l' <> l -> heap w2 !! l' = heap w1 !! l')
    /\ reads w2 = reads w1 /\ send_log w2 = send_log w1.
Proof.
  intros H Hr.
  set (w1 := after_send e (recipients e) w).
  set (c1 := sent_copy e (clock w (reads w + i)%nat) r).
  assert (Hc1 : heap w1 !! (length (heap w) + i)%nat = Some c1)
    by now apply lookup_after_send_new.
  exists (seq (length (heap w)) (length (recipients e))), w1,
    (length (heap w) + i)%nat,
    (with_heap (<[(length (heap w) + i)%nat := prepared c1]> (heap w1)) w1).
  split; [exact (send_email_ok _ _ _ H) |].
  split; [apply lookup_seq_lt; now apply lookup_lt_Some in Hr |].
  split; [exact (prepare_ok _ _ _ Hc1) |].
  split.
  - simpl heap. rewrite list_lookup_insert_ne.
    + now apply (lookup_after_send_old e (recipients e)).
    + apply lookup_lt_Some in H. lia.
  - split; [| split; reflexivity].
    intros l' Hl'. simpl heap. now rewrite list_lookup_insert_ne.
Qed.

Lemma prepare_of_copy_is_local_witness :
  heap (world_of ready_email) !! EmailService.email service = Some ready_email
  /\ recipients ready_email !! 0%nat = Some b_com
  /\ exists sent w1 l w2,
       EmailService.send_email service (world_of ready_email) = (Ok sent, w1)
       /\ sent !! 0%nat = Some l
       /\ prepare l w1 = (Ok l, w2)
       /\ heap w2 !! 0%nat = Some ready_email.
Proof.
  split; [reflexivity |]. split; [reflexivity |].
  destruct (prepare_of_copy_is_local (world_of ready_email) service ready_email
              0%nat b_com eq_refl eq_refl)
    as [sent [w1 [l [w2 [Hrun [Hl [Hp [Hself _]]]]]]]].
  exists sent, w1, l, w2. repeat split; assumption.
Defined.

(** ** The log *)

Lemma write_log_outcome ls : forall w content,
  send_log w = Some content ->
  Forall (fun l => is_Some (heap w !! l)) ls ->
  exists res added,
    LoggingEmailService.write_log ls w
    = (res, with_send_log (Some (content ++ added)) w)
    /\ (res = Ok tt
        \/ (exists msg, res = Raise (AttributeError msg))
        \/ exists obj i, res = Raise (UnicodeEncodeError obj i)).
Proof.
  induction ls as [|l ls IH]; intros w content Hlog HF.
  - exists (Ok tt), []. split; [| now left].
    simpl. unfold mret, M_ret. destruct w; simpl in *. now rewrite app_nil_r, Hlog.
  - inversion HF as [|? ? [c Hc] HF']; subst. simpl.
    rewrite (bind_ok _ _ _ _ _ (get_ok _ _ _ Hc)).
    unfold lift at 1. unfold mbind at 1, M_bind at 1.
    assert (Hsame : with_send_log (Some (content ++ [])) w = w)
      by (destruct w; simpl in *; now rewrite app_nil_r, Hlog).
    destruct (LoggingEmailService.log_line c) as [t|x] eqn:Ht.
    + unfold mbind at 1, M_bind at 1. unfold write.
      destruct (first_surrogate t) as [i|] eqn:Hf.
      * exists (Raise (UnicodeEncodeError t i)), []. rewrite Hsame.
        split; [reflexivity | right; right; eauto].
      * rewrite Hlog. simpl default.
        destruct (IH (with_send_log (Some (content ++ t)) w) (content ++ t)
                    eq_refl HF') as [res [added [Hrun Hres]]].
        exists res, (t ++ added). rewrite Hrun. split; [| exact Hres].
        now rewrite app_assoc.
    + exists (Raise x), []. rewrite Hsame. split; [reflexivity |].
      right; left. unfold LoggingEmailService.log_line in Ht.
      destruct (sender c); [discriminate |]. injection Ht as <-. eauto.
Qed.

(** X16: whatever the bound message, the logging service leaves the heap
    as [EmailService.send_email] leaves it, returns what it returns or
    raises [AttributeError] (a copy without sender) or
    [UnicodeEncodeError] (a line that cannot be encoded), and only ever
    appends to the text of the log: the text that was there is kept in
    front. *)
Theorem logging_send_email_only_appends (w : World) (self : EmailService.t) :
  heap (snd (LoggingEmailService.send_email self w))
  = heap (snd (EmailService.send_email self w))
  /\ (fst (LoggingEmailService.send_email self w)
      = fst (EmailService.send_email self w)
      \/ (exists msg,
            fst (LoggingEmailService.send_email self w) = Raise (AttributeError msg))
      \/ exists obj i,
           fst (LoggingEmailService.send_email self w)
           = Raise (UnicodeEncodeError obj i))
  /\ exists added,
       default [] (send_log (snd (LoggingEmailService.send_email self w)))
       = default [] (send_log w) ++ added.
Proof.
  destruct (heap w !! EmailService.email self) as [e|] eqn:H.
  - set (sent := seq (length (heap w)) (length (recipients e))).
    set (w2 := with_send_log (Some (default [] (send_log w)))
                 (after_send e (recipients e) w)).
    assert (HF : Forall (fun l => is_Some (heap w2 !! l)) sent).
    { apply List.Forall_forall. intros l Hl. apply in_seq in Hl.
      apply lookup_lt_is_Some. simpl. rewrite length_app, length_imap. lia. }
    destruct (write_log_outcome sent w2 (default [] (send_log w)) eq_refl HF)
      as [res [added [Hrun Hres]]].
    assert (Hlog : LoggingEmailService.send_email self w
                   = (match res with Ok _ => Ok sent | Raise x => Raise x end,
                      with_send_log (Some (default [] (send_log w) ++ added)) w2)).
    { unfold LoggingEmailService.send_email.
      rewrite (bind_ok _ _ _ _ _ (send_email_ok _ _ _ H)).
      unfold open_append, mbind, M_bind.
      change (with_send_log
                (Some (default [] (send_log (after_send e (recipients e) w))))
                (after_send e (recipients e) w)) with w2.
      fold sent. rewrite Hrun. now destruct res as [[]|x]. }
    rewrite Hlog, (send_email_ok _ _ _ H). simpl.
    split; [reflexivity |]. split; [| eauto].
    destruct Hres as [->|[[msg ->]|[obj [i ->]]]].
    + now left.
    + right; left; eauto.
    + right; right; eauto.
  - unfold LoggingEmailService.send_email.
    rewrite (bind_raise _ _ _ _ _ (send_email_dangling _ _ H)).
    rewrite (send_email_dangling _ _ H). simpl.
    split; [reflexivity |]. split; [now left |].
    exists []. now rewrite app_nil_r.
Qed.




(** X17: for a message without sender that has a recipient, the logging
    service raises [AttributeError] where [EmailService.send_email]
    returns: the copies were made and the log file was opened (created
    when there was none), and nothing was written to it. *)
Theorem logging_send_email_without_sender
    (w : World) (self : EmailService.t) (e : Email) :
  heap w !! EmailService.email self = Some e ->
  sender e = None -> recipients e <> [] ->
  exists sent w1,
    EmailService.send_email self w = (Ok sent, w1)
    /\ length sent = length (recipients e)
    /\ LoggingEmailService.send_email self w
       = (Raise (AttributeError (lit "'NoneType' object has no attribute 'address'")),
          with_send_log (Some (default [] (send_log w))) w1).
Proof.
  intros H Hs Hr. eexists _, _. split; [exact (send_email_ok _ _ _ H) |].
  split; [apply length_seq |].
  destruct (recipients e) as [|r rs] eqn:Hrs; [congruence |].
  rewrite <- Hrs. now apply (logging_send_email_no_sender _ _ r rs).
Qed.

Lemma logging_send_email_without_sender_witness :
  heap (world_of no_sender_email) !! EmailService.email service = Some no_sender_email
  /\ sender no_sender_email = None /\ recipients no_sender_email <> []
  /\ exists w',
       LoggingEmailService.send_email service (world_of no_sender_email)
       = (Raise (AttributeError (lit "'NoneType' object has no attribute 'address'")),
          w')
       /\ send_log w' = Some [] /\ length (heap w') = 2%nat.
Proof.
  split; [reflexivity |]. split; [reflexivity |]. split; [discriminate |].
  destruct (logging_send_email_without_sender (world_of no_sender_email) service
              no_sender_email eq_refl eq_refl ltac:(discriminate))
    as [sent [w1 [Hrun [_ Hlog]]]].
  eexists. split; [exact Hlog |].
  assert (Hw1 : w1 = snd (EmailService.send_email service (world_of no_sender_email)))
    by now rewrite Hrun.
  subst w1. split; reflexivity.
Defined.

(** ** The date of sending *)

Lemma digit_value n : digit n - 48 = n mod 10.
Proof. unfold digit. generalize (n mod 10). intros m. lia. Qed.

Lemma digits_value_4 y :
  y < 10000 ->
  digits_value [digit (y / 1000); digit (y / 100); digit (y / 10); digit y] = y.
Proof.
  intros H. unfold digits_value. cbn [fold_left]. rewrite !digit_value.
  replace (y / 1000) with (y / 10 / 10 / 10) by (now rewrite !N.Div0.div_div).
  replace (y / 100) with (y / 10 / 10) by (now rewrite !N.Div0.div_div).
  zify. Z.to_euclidean_division_equations. lia.
Qed.

Lemma digits_value_2 y :
  y < 100 -> digits_value [digit (y / 10); digit y] = y.
Proof.
  intros H. unfold digits_value. cbn [fold_left]. rewrite !digit_value.
  zify. Z.to_euclidean_division_equations. lia.
Qed.

(** X18: [add_send_date] reads the clock once and changes nothing else;
    its text has ten characters of the form YYYY-MM-DD, and its three
    groups of digits are the year, the month and the day that were read
    (a year below 10000, a month and a day below 100). *)
Theorem add_send_date_text (w : World) (self : EmailService.t) :
  exists s,
    EmailService.add_send_date self w = (Ok s, with_reads (S (reads w)) w)
    /\ length s = 10%nat
    /\ is_Ymd s
    /\ (year (clock w (reads w)) < 10000 ->
        digits_value (firstn 4 s) = year (clock w (reads w)))
    /\ (month (clock w (reads w)) < 100 ->
        digits_value (firstn 2 (skipn 5 s)) = month (clock w (reads w)))
    /\ (day (clock w (reads w)) < 100 ->
        digits_value (skipn 8 s) = day (clock w (reads w))).
Proof.
  exists (strftime_Ymd (clock w (reads w))).
  split; [reflexivity |]. split; [reflexivity |].
  split; [apply strftime_Ymd_shape |].
  split; [| split].
  - apply digits_value_4.
  - apply digits_value_2.
  - apply digits_value_2.
Qed.

(** ** The recipients of a message, as text *)

Lemma join_app sep (l1 l2 : list pystr) :
  l1 <> [] -> l2 <> [] ->
  join sep (l1 ++ l2) = join sep l1 ++ sep ++ join sep l2.
Proof.
  induction l1 as [|w l1 IH]; intros H1 H2; [congruence |].
  destruct l1 as [|w' l1'].
  - simpl app. now rewrite join_cons.
  - change ((w :: w' :: l1') ++ l2) with (w :: (w' :: l1') ++ l2).
    rewrite join_cons by discriminate.
    rewrite (join_cons sep w (w' :: l1')) by discriminate.
    rewrite IH by (discriminate || assumption).
    now rewrite <- !app_assoc.
Qed.

(** X19: in the text of [get_recipients_str] the address of every
    recipient stands at its place: after the addresses of the recipients
    before it and a ", " when there are some, and before a ", " and the
    addresses of the recipients after it when there are some. *)
Theorem get_recipients_str_parts
    (e : Email) (pre post : list EmailAddress) (r : EmailAddress) :
  recipients e = pre ++ r :: post ->
  get_recipients_str e
  = match pre with
    | [] => []
    | _ => join (lit ", ") (List.map address pre) ++ lit ", "
    end
    ++ address r
    ++ match post with
       | [] => []
       | _ => lit ", " ++ join (lit ", ") (List.map address post)
       end.
Proof.
  intros H. unfold get_recipients_str. rewrite H, List.map_app. simpl List.map.
  assert (Htail : join (lit ", ") (address r :: List.map address post)
                  = address r
                    ++ match post with
                       | [] => []
                       | _ => lit ", " ++ join (lit ", ") (List.map address post)
                       end).
  { destruct post as [|p post']; [simpl; now rewrite app_nil_r |].
    now rewrite join_cons by discriminate. }
  destruct pre as [|p pre'].
  - simpl app at 1. exact Htail.
  - rewrite join_app by discriminate. rewrite Htail.
    now rewrite <- !app_assoc.
Qed.

Lemma get_recipients_str_parts_witness :
  recipients ready_email = [b_com] ++ c_com :: []
  /\ get_recipients_str ready_email = lit "b@b.com, c@c.com".
Proof.
  split; [reflexivity |].
  exact (get_recipients_str_parts ready_email [b_com] [] c_com eq_refl).
Defined.
